(** * Key mappings of Vimperator: [common/content/mappings.js]

    A shallow embedding of the [Map] class and of the [Mappings] object,
    and the properties of the mapping engine proved over it.

    Conventions of the embedding.
    - A [Map] instance is an object with identity: the very same object is
      pushed into the table of each of its modes, and [removeMap] splices
      its [names] array in place.  Objects therefore live in a [heap]
      (a list indexed by location), and the mode tables hold locations.
    - [main] and [user], the two sparse arrays of the [Mappings] closure,
      are finite maps from mode numbers to arrays of locations.
    - A public method of the [mappings] object is a computation in the
      monad [M]: it takes the state, completes normally ([Return]) or
      abruptly ([Throw]), and leaves a state.  Private helpers that cannot
      throw are plain functions of the state.
    - Strings are sequences of 8-bit code units.
    - Collaborators declared outside this file ([events.canonicalKeys],
      [modes.NORMAL], the behaviour of the bound action functions) are
      variables of the section. *)

From Stdlib Require Import ZArith NArith Ascii String List Bool Lia.
From stdpp Require Import base option list gmap strings.

Local Open Scope string_scope.

(** ** Values and objects *)

(** A mode is a number (a bit mask in [modes.js]). *)
Abbreviation mode_id := N (only parsing).

(** A reference to a [Map] object. *)
Abbreviation loc := nat (only parsing).

(** The values passed to and returned by a bound action. *)
Inductive value :=
| Undefined
| Number (z : Z)
| Str (s : string).

(** A function object, known by its identity only. *)
Inductive jsfun := FunRef (id : N).

(** The [extraInfo] hash of the [Map] constructor; a property that is not
    set reads as [false] (or [None] for [rhs]). *)
Module ExtraInfo.
Record t := mk {
  arg : bool; count : bool; motion : bool; route : bool;
  noremap : bool; silent : bool; rhs : option string; user : bool }.

Definition empty : t := mk false false false false false false None false.

Definition set_user (b : bool) (e : t) : t :=
  mk (arg e) (count e) (motion e) (route e) (noremap e) (silent e) (rhs e) b.
End ExtraInfo.

(** The fields of a [Map] instance. *)
Module Map.
Record t := mk {
  modes : list mode_id;
  names : list string;
  action : jsfun;
  description : string;
  arg : bool; count : bool; motion : bool; route : bool;
  noremap : bool; silent : bool;
  rhs : option string;
  user : bool }.

Definition set_names (ns : list string) (m : t) : t :=
  mk (modes m) ns (action m) (description m) (arg m) (count m) (motion m)
     (route m) (noremap m) (silent m) (rhs m) (user m).
End Map.

(** [function () self.action.apply(self, args)]: the closure stored in
    [mappings.repeat] captures the object and the argument array. *)
Record closure := Closure { self : loc; args : list value }.

(** The state the file works on: the objects, the two tables of the
    [Mappings] closure, [mappings.repeat], and the global variable
    [mapleader] ([None] when [liberator.variableReference] finds none). *)
Record state := State {
  heap : list Map.t;
  main : gmap mode_id (list loc);
  user : gmap mode_id (list loc);
  repeat : option closure;
  mapleader : option string }.

Definition set_heap (h : list Map.t) (st : state) : state :=
  State h (main st) (user st) (repeat st) (mapleader st).
Definition set_main (t : gmap mode_id (list loc)) (st : state) : state :=
  State (heap st) t (user st) (repeat st) (mapleader st).
Definition set_user (t : gmap mode_id (list loc)) (st : state) : state :=
  State (heap st) (main st) t (repeat st) (mapleader st).
Definition set_repeat (r : option closure) (st : state) : state :=
  State (heap st) (main st) (user st) r (mapleader st).

(** ** Completions and the monad of the public methods *)

Inductive exn := TypeError.

Inductive completion (A : Type) :=
| Return (a : A)
| Throw (e : exn).
Arguments Return {A} a.
Arguments Throw {A} e.

Definition M (A : Type) : Type := state -> completion A * state.

Definition ret {A} (a : A) : M A := fun st => (Return a, st).
Definition throw {A} (e : exn) : M A := fun st => (Throw e, st).
Definition bind {A B} (c : M A) (k : A -> M B) : M B :=
  fun st => match c st with
            | (Return a, st') => k a st'
            | (Throw e, st') => (Throw e, st')
            end.
Definition gets {A} (f : state -> A) : M A := fun st => (Return (f st), st).
Definition modify (f : state -> state) : M unit := fun st => (Return tt, f st).
(** Reading a value that may fail, without touching the state. *)
Definition attempt {A} (f : state -> completion A) : M A := fun st => (f st, st).

Notation "x <- c ;; k" := (bind c (fun x => k))
  (at level 100, c at next level, right associativity).

(** ** Strings: the operations of the JavaScript library the file uses *)

(** [s || d] on strings: the empty string is falsy. *)
Definition or_string (s d : string) : string :=
  match s with "" => d | _ => s end.

(** [s || null] on an optional string. *)
Definition or_null (s : option string) : option string :=
  match s with Some "" => None | _ => s end.

(** [name.indexOf(prefix) == 0]. *)
Definition indexOf_is_0 (name prefix : string) : bool := String.prefix prefix name.

(** Line terminators, which [.] does not match. *)
Definition line_terminator (c : ascii) : bool :=
  Ascii.eqb c "010" || Ascii.eqb c "013".

(** The rest of a match of [.+>]: after at least one character matched by
    [.], some [>] is reached through characters matched by [.]. *)
Fixpoint dots_then_gt (s : string) : bool :=
  match s with
  | "" => false
  | String c rest =>
      if Ascii.eqb c ">" then true
      else if line_terminator c then false
      else dots_then_gt rest
  end.

(** [/^<.+>/.test(name)]: a [<], one character matched by [.] (which may
    be a [>]), then the rest of the match. *)
Definition looks_bracketed (name : string) : bool :=
  match name with
  | String a (String c rest) =>
      Ascii.eqb a "<" && negb (line_terminator c) && dots_then_gt rest
  | _ => false
  end.

(** Canonicalisation of a character under the [i] flag, on ASCII. *)
Definition upcase (c : ascii) : ascii :=
  let n := nat_of_ascii c in
  if (97 <=? n)%nat && (n <=? 122)%nat then ascii_of_nat (n - 32) else c.

Definition ci_eqb (a b : ascii) : bool := Ascii.eqb (upcase a) (upcase b).

(** Matching the literal pattern [pat], case-insensitively, at the start
    of [s]: the matched text and what follows it. *)
Fixpoint match_here (pat s : string) : option (string * string) :=
  match pat, s with
  | "", _ => Some ("", s)
  | String p pat', String c s' =>
      if ci_eqb p c then
        match match_here pat' s' with
        | Some (m, after) => Some (String c m, after)
        | None => None
        end
      else None
  | String _ _, "" => None
  end.

(** The leftmost match of [pat] in [s]: the text before it, the matched
    text and the text after it. *)
Fixpoint search (pat s : string) : option (string * string * string) :=
  match match_here pat s with
  | Some (m, after) => Some ("", m, after)
  | None =>
      match s with
      | "" => None
      | String c s' =>
          match search pat s' with
          | Some (before, m, after) => Some (String c before, m, after)
          | None => None
          end
      end
  end.

(** The replacement text of [String.prototype.replace] (ECMA-262, 5th
    edition, 15.5.4.11, table 22) for a pattern without capturing groups:
    [$$] is a dollar sign, [$&] the matched text, [$`] the text before the
    match, [$'] the text after it; any other [$] stands for itself. *)
Fixpoint GetSubstitution (matched before after replacement : string) : string :=
  match replacement with
  | "" => ""
  | String c tl =>
      if Ascii.eqb c "$" then
        match tl with
        | String d rest =>
            if Ascii.eqb d "$" then String "$" (GetSubstitution matched before after rest)
            else if Ascii.eqb d "&" then matched +:+ GetSubstitution matched before after rest
            else if Ascii.eqb d "`" then before +:+ GetSubstitution matched before after rest
            else if Ascii.eqb d "'" then after +:+ GetSubstitution matched before after rest
            else String "$" (GetSubstitution matched before after tl)
        | "" => String "$" ""
        end
      else String c (GetSubstitution matched before after tl)
  end.

(** [s.replace(/pat/i, replacement)] for a literal pattern [pat]: the
    first match only, since the expression has no [g] flag. *)
Definition replace_first_ci (pat s replacement : string) : string :=
  match search pat s with
  | None => s
  | Some (before, m, after) =>
      before +:+ GetSubstitution m before after replacement +:+ after
  end.

(** [Array.prototype.indexOf] on an array of strings; [-1] when absent. *)
Fixpoint indexOf_from (xs : list string) (x : string) (i : Z) : Z :=
  match xs with
  | [] => (-1)%Z
  | y :: ys => if String.eqb y x then i else indexOf_from ys x (i + 1)%Z
  end.
Definition indexOf (xs : list string) (x : string) : Z := indexOf_from xs x 0.

(** ** The program *)

Section Mappings.

(** [events.canonicalKeys], declared in [events.js]. *)
Variable canonicalKeys : string -> string.

(** [modes.NORMAL], declared in [modes.js]. *)
Variable NORMAL : mode_id.

(** [f.apply(this, args)] for the function objects bound as actions: what
    a call does to the state, and how it completes. *)
Variable apply : jsfun -> loc -> list value -> M value.

(** *** [Map] *)

(** The object built by [new Map(modes, keys, description, action,
    extraInfo)], before it is given a location. *)
Definition Map_init (modes : list mode_id) (keys : list string) (description : string)
    (action : jsfun) (extraInfo : option ExtraInfo.t) : Map.t :=
  let extraInfo := default ExtraInfo.empty extraInfo in
  {| Map.modes := modes;
     Map.names := map canonicalKeys keys;
     Map.action := action;
     Map.description := or_string description "";
     Map.arg := ExtraInfo.arg extraInfo || false;
     Map.count := ExtraInfo.count extraInfo || false;
     Map.motion := ExtraInfo.motion extraInfo || false;
     Map.route := ExtraInfo.route extraInfo || false;
     Map.noremap := ExtraInfo.noremap extraInfo || false;
     Map.silent := ExtraInfo.silent extraInfo || false;
     Map.rhs := or_null (ExtraInfo.rhs extraInfo);
     Map.user := ExtraInfo.user extraInfo || false |}.

(** [new Map(...)]: the object is allocated at the next free location. *)
Definition new_Map (modes : list mode_id) (keys : list string) (description : string)
    (action : jsfun) (extraInfo : option ExtraInfo.t) : M loc :=
  fun st =>
    (Return (length (heap st)),
     set_heap (heap st ++ [Map_init modes keys description action extraInfo])%list st).

(** [map.names] for a reference [map]. *)
Definition names_of (h : list Map.t) (map : loc) : list string :=
  from_option Map.names [] (h !! map).

(** [map.modes]. *)
Definition modes_of (h : list Map.t) (map : loc) : list mode_id :=
  from_option Map.modes [] (h !! map).

(** [Map.prototype.hasName]. *)
Definition hasName (h : list Map.t) (this : loc) (name : string) : bool :=
  (0 <=? indexOf (names_of h this) name)%Z.

(** [args.push(x)]. *)
Definition push {A} (xs : list A) (x : A) : list A := (xs ++ [x])%list.

(** [this.names[0] != "."]; an absent first name differs from ["."]. *)
Definition first_name_is_not_dot (m : Map.t) : bool :=
  match Map.names m !! 0%nat with
  | Some n => negb (String.eqb n ".")
  | None => true
  end.

(** [Map.prototype.execute]. *)
Definition execute (this : loc) (motion count argument : value) : M value :=
  fun st =>
    match heap st !! this with
    | None => (Throw TypeError, st)
    | Some m =>
        let args := [] in
        let args := if Map.motion m then push args motion else args in
        let args := if Map.count m then push args count else args in
        let args := if Map.arg m then push args argument else args in
        let st :=
          if first_name_is_not_dot m
          then set_repeat (Some (Closure this args)) st
          else st in
        apply (Map.action m) this args st
    end.

(** Calling the closure held by [mappings.repeat]: it reads [self.action]
    when it is called. *)
Definition call_closure (c : closure) : M value :=
  fun st =>
    match heap st !! self c with
    | None => (Throw TypeError, st)
    | Some m => apply (Map.action m) (self c) (args c) st
    end.

(** *** [Mappings]: the private section *)

(** The state [Mappings()] starts from: an empty array in both tables for
    each mode of [modes]. *)
Definition Mappings (modes : list mode_id) (leader : option string) : state :=
  {| heap := [];
     main := fold_left (fun t mode => <[mode := []]> t) modes ∅;
     user := fold_left (fun t mode => <[mode := []]> t) modes ∅;
     repeat := None;
     mapleader := leader |}.

(** The body of the [forEach] of [addMap], for one mode. *)
Definition addMap_mode (map : loc) (where_ : gmap mode_id (list loc)) (mode : mode_id)
    : gmap mode_id (list loc) :=
  let where_ :=
    match where_ !! mode with
    | None => <[mode := []]> where_
    | Some _ => where_
    end in
  <[mode := push (default [] (where_ !! mode)) map]> where_.

(** [addMap]. *)
Definition addMap (map : loc) (st : state) : state :=
  match heap st !! map with
  | None => st
  | Some m =>
      if Map.user m
      then set_user (fold_left (addMap_mode map) (Map.modes m) (user st)) st
      else set_main (fold_left (addMap_mode map) (Map.modes m) (main st)) st
  end.

(** The loop of [getMap]: the first map of the array that has the name. *)
Fixpoint getMap_loop (h : list Map.t) (cmd : string) (maps : list loc) : option loc :=
  match maps with
  | [] => None
  | map :: rest => if hasName h map cmd then Some map else getMap_loop h cmd rest
  end.

(** [getMap]; [None] is [null]. *)
Definition getMap (mode : mode_id) (cmd : string) (stack : gmap mode_id (list loc))
    (st : state) : option loc :=
  let maps := default [] (stack !! mode) in
  getMap_loop (heap st) cmd maps.

(** The inner loop of [removeMap]: the index of the first name equal to
    [cmd], counting from [j]. *)
Fixpoint removeMap_names (cmd : string) (names : list string) (j : nat) : option nat :=
  match names with
  | [] => None
  | name :: rest =>
      if String.eqb name cmd then Some j else removeMap_names cmd rest (S j)
  end.

(** The outer loop of [removeMap]: where the [return] is reached, if it
    is: the index [i] of the map in the array, the map, and the index [j]
    of the name in its names. *)
Fixpoint removeMap_maps (h : list Map.t) (cmd : string) (maps : list loc) (i : nat)
    : option (nat * loc * nat) :=
  match maps with
  | [] => None
  | map :: rest =>
      match removeMap_names cmd (names_of h map) 0 with
      | Some j => Some (i, map, j)
      | None => removeMap_maps h cmd rest (S i)
      end
  end.

(** [map.names.splice(j, 1)], on the object itself. *)
Definition splice_name (map : loc) (j : nat) (st : state) : state :=
  match heap st !! map with
  | None => st
  | Some m =>
      set_heap (<[map := Map.set_names (delete j (Map.names m)) m]> (heap st)) st
  end.

(** [removeMap]. *)
Definition removeMap (mode : mode_id) (cmd : string) (st : state) : state :=
  let maps := default [] (user st !! mode) in
  match removeMap_maps (heap st) cmd maps 0 with
  | None => st
  | Some (i, map, j) =>
      let st := splice_name map j st in
      if (length (names_of (heap st) map) =? 0)%nat
      then set_user (<[mode := delete i maps]> (user st)) st
      else st
  end.

(** Modelled from the spec: [liberator.variableReference("mapleader")],
    declared in [liberator.js], finds the process-wide configurable
    variable that holds the leader, or nothing when it is not set. *)
Definition variableReference_mapleader (st : state) : option string := mapleader st.

(** The body of [mappings.getMapLeader]:
    [leaderRef[0] ? leaderRef[0][leaderRef[1]] : "\\"]. *)
Definition getMapLeader_value (st : state) : string :=
  match variableReference_mapleader st with
  | Some leader => leader
  | None => "\"
  end.

(** [mappings.getMapLeader]. *)
Definition getMapLeader : M string := gets getMapLeader_value.

(** [expandLeader]: [keyString.replace(/<Leader>/i, mappings.getMapLeader())]. *)
Definition expandLeader (keyString : string) (st : state) : string :=
  replace_first_ci "<Leader>" keyString (getMapLeader_value st).

(** [m.rhs == map.rhs && m.names[0] == map.names[0]]. *)
Definition same_rhs_and_first_name (h : list Map.t) (map m : loc) : bool :=
  match h !! m, h !! map with
  | Some m, Some map =>
      bool_decide (Map.rhs m = Map.rhs map)
      && bool_decide (Map.names m !! 0%nat = Map.names map !! 0%nat)
  | _, _ => false
  end.

(** [modes.every(function (mode) stack[mode].some(...))]: [every] stops at
    the first mode that fails, and reading [some] of a missing array is a
    [TypeError]. *)
Fixpoint every_mode (h : list Map.t) (stack : gmap mode_id (list loc)) (map : loc)
    (modes : list mode_id) : completion bool :=
  match modes with
  | [] => Return true
  | mode :: rest =>
      match stack !! mode with
      | None => Throw TypeError
      | Some maps =>
          if existsb (same_rhs_and_first_name h map) maps
          then every_mode h stack map rest
          else Return false
      end
  end.

(** The generator expression of [mappingsIterator], run to its end. *)
Fixpoint generate (h : list Map.t) (stack : gmap mode_id (list loc)) (modes : list mode_id)
    (maps : list loc) : completion (list loc) :=
  match maps with
  | [] => Return []
  | map :: rest =>
      match every_mode h stack map modes with
      | Throw e => Throw e
      | Return keep =>
          match generate h stack modes rest with
          | Throw e => Throw e
          | Return ys => Return (if keep then map :: ys else ys)
          end
      end
  end.

(** [mappingsIterator], as the list of the maps the iterator yields when
    it is run to its end on a table that does not change meanwhile. An
    empty [modes] makes [modes.shift()] undefined, and [Iterator] of a
    missing array is a [TypeError]. *)
Definition mappingsIterator (modes : list mode_id) (stack : gmap mode_id (list loc))
    (st : state) : completion (list loc) :=
  match modes with
  | [] => Throw TypeError
  | first :: modes =>
      match stack !! first with
      | None => Throw TypeError
      | Some maps => generate (heap st) stack modes maps
      end
  end.

(** *** [Mappings]: the public section *)

(** [mappings.getUserIterator]. *)
Definition getUserIterator (mode : list mode_id) : M (list loc) :=
  attempt (fun st => mappingsIterator mode (user st) st).

(** [mappings.addMode]. *)
Definition addMode (mode : mode_id) : M unit :=
  modify (fun st =>
    match user st !! mode, main st !! mode with
    | None, None => set_user (<[mode := []]> (user st)) (set_main (<[mode := []]> (main st)) st)
    | _, _ => st
    end).

(** [mappings.add]. *)
Definition add (modes : list mode_id) (keys : list string) (description : string)
    (action : jsfun) (extra : option ExtraInfo.t) : M unit :=
  map <- new_Map modes keys description action extra ;;
  modify (addMap map).

(** The two loops of [addUserMap] that remove the old mappings. *)
Definition remove_old (names : list string) (modes : list mode_id) (st : state) : state :=
  fold_left
    (fun st name => fold_left (fun st mode => removeMap mode name st) modes st)
    names st.

(** [mappings.addUserMap]. *)
Definition addUserMap (modes : list mode_id) (keys : list string) (description : string)
    (action : jsfun) (extra : option ExtraInfo.t) : M unit :=
  keys <- gets (fun st => List.map (fun key => expandLeader key st) keys) ;;
  let extra := default ExtraInfo.empty extra in
  let extra := ExtraInfo.set_user true extra in
  map <- new_Map modes keys (or_string description "User defined mapping")
           action (Some extra) ;;
  (* remove all old mappings to this key sequence *)
  _ <- modify (fun st =>
         remove_old (names_of (heap st) map) (modes_of (heap st) map) st) ;;
  modify (addMap map).

(** [mode || modes.NORMAL]: the number [0] is falsy. *)
Definition or_NORMAL (mode : mode_id) : mode_id :=
  if (mode =? 0)%N then NORMAL else mode.

(** [a || b] on references; [None] is [null]. *)
Definition or_else (a b : option loc) : option loc :=
  match a with Some _ => a | None => b end.

(** [mappings.get]. *)
Definition get (mode : mode_id) (cmd : string) : M (option loc) :=
  let mode := or_NORMAL mode in
  gets (fun st => or_else (getMap mode cmd (user st) st) (getMap mode cmd (main st) st)).

(** [mappings.getDefault]. *)
Definition getDefault (mode : mode_id) (cmd : string) : M (option loc) :=
  let mode := or_NORMAL mode in
  gets (fun st => getMap mode cmd (main st) st).

(** The test of [getCandidates] on one name. *)
Definition candidate_name (prefix name : string) : bool :=
  (indexOf_is_0 name prefix && (String.length prefix <? String.length name)%nat)
  && (negb (String.eqb prefix "<") || negb (looks_bracketed name)).

(** The inner loop of [getCandidates]: one [push] of the map for each of
    its names that passes the test. *)
Definition getCandidates_names (prefix : string) (map : loc) (names : list string)
    (matches : list loc) : list loc :=
  fold_left
    (fun matches name => if candidate_name prefix name then push matches map else matches)
    names matches.

(** The outer loop of [getCandidates]. *)
Definition getCandidates_maps (h : list Map.t) (prefix : string) (mappings : list loc)
    (matches : list loc) : list loc :=
  fold_left
    (fun matches map => getCandidates_names prefix map (names_of h map) matches)
    mappings matches.

(** [mappings.getCandidates]. [user[mode].concat(main[mode])] is a
    [TypeError] when [user[mode]] is missing; when only [main[mode]] is
    missing, the array ends with [undefined], whose [names] is read after
    the maps of [user[mode]]: a [TypeError] as well. *)
Definition getCandidates (mode : mode_id) (prefix : string) : M (list loc) :=
  attempt (fun st =>
    match user st !! mode, main st !! mode with
    | Some u, Some d =>
        let mappings := (u ++ d)%list in
        let matches := [] in
        Return (getCandidates_maps (heap st) prefix mappings matches)
    | _, _ => Throw TypeError
    end).

(** [mappings.hasMap]. *)
Definition hasMap (mode : mode_id) (cmd : string) : M bool :=
  attempt (fun st =>
    match user st !! mode with
    | None => Throw TypeError
    | Some maps => Return (existsb (fun map => hasName (heap st) map cmd) maps)
    end).

(** [mappings.remove]. *)
Definition remove (mode : mode_id) (cmd : string) : M unit :=
  modify (removeMap mode cmd).

(** [mappings.removeAll]. *)
Definition removeAll (mode : mode_id) : M unit :=
  modify (fun st => set_user (<[mode := []]> (user st)) st).

End Mappings.

(** ** The commands of [addMapCommands], and the iterator of the defaults *)

(** The arguments a command is called with: the positional arguments, and
    whether the option [<silent>] was given (["<silent>" in args]). *)
Module Args.
Record t := mk { positional : list string; silent : bool }.
End Args.

(** One element of the array [serial] returns. [arguments] is
    [[map.names[0]]], where the first name may be missing; [options] is
    [{"<silent>": null}] or [{}]. *)
Module Serial.
Record t := mk {
  command : string;
  options_silent : bool;
  arguments : list (option string);
  literalArg : option string }.
End Serial.

(** [Array.prototype.indexOf] on an array of numbers; [-1] when absent. *)
Fixpoint indexOf_number_from (xs : list mode_id) (x : mode_id) (i : Z) : Z :=
  match xs with
  | [] => (-1)%Z
  | y :: ys => if (y =? x)%N then i else indexOf_number_from ys x (i + 1)%Z
  end.
Definition indexOf_number (xs : list mode_id) (x : mode_id) : Z :=
  indexOf_number_from xs x 0.

(** [String.prototype.indexOf] with a string to search for; [-1] when it
    does not occur. *)
Fixpoint indexOf_string_from (s sub : string) (i : Z) : Z :=
  if String.prefix sub s then i
  else match s with
       | "" => (-1)%Z
       | String _ rest => indexOf_string_from rest sub (i + 1)%Z
       end.
Definition indexOf_string (s sub : string) : Z := indexOf_string_from s sub 0.

(** [/^<Nop>$/i.test(rhs)]. *)
Definition is_Nop (rhs : string) : bool :=
  match match_here "<Nop>" rhs with
  | Some (_, "") => true
  | _ => false
  end.

(** [/^[nv](nore)?map$/.test(cmd)]. *)
Definition nv_map (cmd : string) : bool :=
  match cmd with
  | String c rest =>
      (Ascii.eqb c "n" || Ascii.eqb c "v")
      && (String.eqb rest "noremap" || String.eqb rest "map")
  | "" => false
  end.

(** [xs.forEach(f)], and a [for] loop without [return], for a body that
    may throw. *)
Fixpoint forEach {A} (xs : list A) (f : A -> M unit) : M unit :=
  match xs with
  | [] => ret tt
  | x :: rest => _ <- f x ;; forEach rest f
  end.

Section Commands.

(** [events.canonicalKeys], [modes.NORMAL] and [modes.VISUAL]. *)
Variable canonicalKeys : string -> string.
Variable NORMAL : mode_id.
Variable VISUAL : mode_id.

(** [mappings.list], which renders a table of mappings, with its optional
    filter; and [liberator.echoerr]. *)
Variable mappings_list : list mode_id -> option string -> M unit.
Variable echoerr : string -> M unit.

(** The function object [function (count) { events.feedkeys(...) }] that
    [map] binds as the action of the mapping it makes. *)
Variable feedkeys_action : jsfun.

(** [mappings.__iterator__]: [mappingsIterator([modes.NORMAL], main)]. *)
Definition __iterator__ : M (list loc) :=
  attempt (fun st => mappingsIterator [NORMAL] (main st) st).

(** The function [map] of [addMapCommands]. The second positional
    argument [rhs] is falsy when it is missing or empty. *)
Definition map_command (args : Args.t) (modes : list mode_id) (noremap : bool) : M unit :=
  match Args.positional args with
  | [] => mappings_list modes None
  | lhs :: rest =>
      match or_null (rest !! 0%nat) with
      | None =>
          lhs <- gets (expandLeader lhs) ;;
          mappings_list modes (Some lhs)
      | Some rhs =>
          (* this matches Vim's behaviour *)
          let noremap := if is_Nop rhs then true else noremap in
          addUserMap canonicalKeys modes [lhs] "User defined mapping" feedkeys_action
            (Some {| ExtraInfo.arg := false;
                     ExtraInfo.count := true;
                     ExtraInfo.motion := false;
                     ExtraInfo.route := false;
                     ExtraInfo.noremap := noremap;
                     ExtraInfo.silent := Args.silent args;
                     ExtraInfo.rhs := Some (canonicalKeys rhs);
                     ExtraInfo.user := false |})
      end
  end.

(** [isMultiMode]. *)
Definition isMultiMode (h : list Map.t) (map : loc) (cmd : string) : bool :=
  (0 <=? indexOf_number (modes_of h map) NORMAL)%Z
  && (0 <=? indexOf_number (modes_of h map) VISUAL)%Z
  && nv_map cmd.

(** The condition of the comprehension of [serial]:
    [map.rhs && map.noremap == noremap && !isMultiMode(map, this.name)]. *)
Definition serial_keeps (h : list Map.t) (name : string) (noremap : bool) (map : loc) : bool :=
  match h !! map with
  | None => false
  | Some m =>
      match or_null (Map.rhs m) with
      | None => false
      | Some _ => Bool.eqb (Map.noremap m) noremap && negb (isMultiMode h map name)
      end
  end.

(** The element [serial] makes of a map. *)
Definition serial_entry (h : list Map.t) (name : string) (map : loc) : Serial.t :=
  {| Serial.command := name;
     Serial.options_silent := from_option Map.silent false (h !! map);
     Serial.arguments := [names_of h map !! 0%nat];
     Serial.literalArg := from_option Map.rhs None (h !! map) |}.

(** [serial], of the options of the commands [map] and [noremap], for the
    command called [name] that was added for [modes]. *)
Definition serial (name : string) (modes : list mode_id) : M (list Serial.t) :=
  attempt (fun st =>
    let noremap := (-1 <? indexOf_string name "noremap")%Z in
    match mappingsIterator modes (user st) st with
    | Throw e => Throw e
    | Return maps =>
        Return (List.map (serial_entry (heap st) name)
                  (List.filter (serial_keeps (heap st) name noremap) maps))
    end).

(** The action of the command [mapclear]. *)
Definition mapclear_command (modes : list mode_id) : M unit :=
  forEach modes (fun mode => removeAll mode).

(** The loop of the action of the command [unmap], with [found] as it
    stands when the loop reaches [modes]. *)
Fixpoint unmap_loop (modes : list mode_id) (args : string) (found : bool) : M bool :=
  match modes with
  | [] => ret found
  | mode :: rest =>
      has <- hasMap mode args ;;
      if has
      then _ <- remove mode args ;; unmap_loop rest args true
      else unmap_loop rest args found
  end.

(** The action of the command [unmap]; [args] is [args[0]], the one
    argument the command takes. *)
Definition unmap_command (modes : list mode_id) (args : string) : M unit :=
  found <- unmap_loop modes args false ;;
  if negb found then echoerr "E31: No such mapping" else ret tt.

End Commands.

(** ** Concrete collaborators, for running the program on examples *)

(** A canonicaliser that leaves its argument as it is, as
    [events.canonicalKeys] does on plain keys such as [a] or [dw]. *)
Definition plain_keys (keys : string) : string := keys.

(** An action that returns the number of its arguments and leaves the
    state alone. *)
Definition count_args (f : jsfun) (this : loc) (args : list value) : M value :=
  ret (Number (Z.of_nat (length args))).

(** Some function object. *)
Definition f0 : jsfun := FunRef 0.

(** ** The vocabulary of the properties *)

(** The user matches and the default matches of a name in a mode. *)
Definition user_match (st : state) (mode : mode_id) (name : string) (map : loc) : Prop :=
  map ∈ default [] (user st !! mode) /\ name ∈ names_of (heap st) map.

Definition default_match (st : state) (mode : mode_id) (name : string) (map : loc) : Prop :=
  map ∈ default [] (main st !! mode) /\ name ∈ names_of (heap st) map.

(** The argument list as the specification describes it: [motion] if the
    map accepts a motion, then [count] if it accepts a count, then
    [argument] if it accepts an argument. *)
Definition arguments_for (m : Map.t) (motion count argument : value) : list value :=
  ((if Map.motion m then [motion] else [])
   ++ (if Map.count m then [count] else [])
   ++ (if Map.arg m then [argument] else []))%list.

(** The first name of a map is ["."]. *)
Definition primary_name_is_dot (m : Map.t) : Prop := Map.names m !! 0%nat = Some ".".

(** An action that leaves [mappings.repeat] as it finds it. *)
Definition keeps_repeat (apply : jsfun -> loc -> list value -> M value) (f : jsfun) : Prop :=
  forall this args st, repeat (snd (apply f this args st)) = repeat st.

(** A string without a dollar sign. *)
Fixpoint no_dollar (s : string) : bool :=
  match s with
  | "" => true
  | String c rest => negb (Ascii.eqb c "$") && no_dollar rest
  end.

(** [name] starts with [prefix] and is strictly longer. *)
Definition extends_prefix (prefix name : string) : Prop :=
  exists suffix, suffix <> "" /\ name = prefix +:+ suffix.

(** [name] matches [^<.+>]: it starts with a [<], then one or more
    characters that are not line terminators, then a [>]. *)
Definition bracketed_at_start (name : string) : Prop :=
  exists mid rest,
    mid <> ""
    /\ (forall c, In c (list_ascii_of_string mid) -> line_terminator c = false)
    /\ name = "<" +:+ mid +:+ ">" +:+ rest.

(** The names that make a map a candidate for a prefix. *)
Definition is_candidate (prefix name : string) : Prop :=
  extends_prefix prefix name /\ (prefix = "<" -> ~ bracketed_at_start name).

(** The first occurrence of [cmd] in the user table of [mode]: the maps
    [pre] before [map] in the array do not have the name, and in the names
    of [map] the names [ns1] before it differ from it. *)
Definition first_occurrence (st : state) (mode : mode_id) (cmd : string)
    (pre : list loc) (map : loc) (post : list loc) (ns1 ns2 : list string) : Prop :=
  user st !! mode = Some (pre ++ map :: post)%list
  /\ (forall m, m ∈ pre -> cmd ∉ names_of (heap st) m)
  /\ names_of (heap st) map = (ns1 ++ cmd :: ns2)%list
  /\ cmd ∉ ns1.

(** No user map of [mode] has the name. *)
Definition no_occurrence (st : state) (mode : mode_id) (cmd : string) : Prop :=
  forall m, m ∈ default [] (user st !! mode) -> cmd ∉ names_of (heap st) m.

(** [removeMap] changes, of the objects, their names only, and allocates
    nothing. *)
Definition same_but_names (h h' : list Map.t) : Prop :=
  length h' = length h
  /\ forall l, Map.set_names [] <$> (h' !! l) = Map.set_names [] <$> (h !! l).

(** [m] is a counterpart of [map]: same [rhs], same first name. *)
Definition counterpart (h : list Map.t) (map m : loc) : Prop :=
  exists a b,
    h !! m = Some a /\ h !! map = Some b
    /\ Map.rhs a = Map.rhs b
    /\ Map.names a !! 0%nat = Map.names b !! 0%nat.

(** [map] has a counterpart in the array of each mode of [modes]. *)
Definition in_every_mode (h : list Map.t) (stack : gmap mode_id (list loc))
    (modes : list mode_id) (map : loc) : Prop :=
  forall mode, mode ∈ modes ->
    exists m, m ∈ default [] (stack !! mode) /\ counterpart h map m.

(** The test of the generator, as a boolean. *)
Definition keep_map (h : list Map.t) (stack : gmap mode_id (list loc))
    (modes : list mode_id) (map : loc) : bool :=
  forallb (fun mode => existsb (same_rhs_and_first_name h map) (default [] (stack !! mode)))
    modes.

(** The invariant of the user table that the registrations keep when no
    registration gives one name twice: the names of a user map are all
    different, two user maps of one mode that share a name are one
    object, and the maps of the arrays are allocated. *)
Definition names_unique (st : state) : Prop :=
  forall mode l, l ∈ default [] (user st !! mode) -> NoDup (names_of (heap st) l).

Definition holders_unique (st : state) : Prop :=
  forall mode l1 l2 n,
    l1 ∈ default [] (user st !! mode) -> l2 ∈ default [] (user st !! mode) ->
    n ∈ names_of (heap st) l1 -> n ∈ names_of (heap st) l2 -> l1 = l2.

Definition allocated (st : state) : Prop :=
  forall mode l, l ∈ default [] (user st !! mode) -> (l < length (heap st))%nat.

Definition user_inv (st : state) : Prop :=
  names_unique st /\ holders_unique st /\ allocated st.

(** [st'] comes from [st] by removals: nothing is allocated, names and
    arrays only lose elements, and an object that is in no user array is
    left alone. *)
Definition shrinks (st st' : state) : Prop :=
  length (heap st') = length (heap st)
  /\ (forall l, names_of (heap st') l `sublist_of` names_of (heap st) l)
  /\ (forall mode, default [] (user st' !! mode) `sublist_of` default [] (user st !! mode))
  /\ (forall l, (forall mode, l ∉ default [] (user st !! mode)) ->
                heap st' !! l = heap st !! l).

(** The calls of [removeMap] made by the two loops of [addUserMap]. *)
Definition remove_calls (names : list string) (modes : list mode_id)
    : list (mode_id * string) :=
  flat_map (fun name => List.map (fun mode => (mode, name)) modes) names.

(** The names of the map that [addUserMap] makes. *)
Definition new_names (canonicalKeys : string -> string) (keys : list string) (st : state)
    : list string :=
  List.map canonicalKeys (List.map (fun key => expandLeader key st) keys).

(** One call of [addUserMap], and a sequence of calls. *)
Record registration := Registration {
  r_modes : list mode_id;
  r_keys : list string;
  r_description : string;
  r_action : jsfun;
  r_extra : option ExtraInfo.t }.

Definition addUserMaps (canonicalKeys : string -> string) (rs : list registration)
    (st : state) : state :=
  fold_left
    (fun st r =>
       snd (addUserMap canonicalKeys (r_modes r) (r_keys r) (r_description r)
              (r_action r) (r_extra r) st))
    rs st.

(** A string without the character [<]. *)
Fixpoint no_lt (s : string) : bool :=
  match s with
  | "" => true
  | String c rest => negb (Ascii.eqb c "<") && no_lt rest
  end.

(** The two layers are kept apart: a map of a default array is an
    allocated object that is not a user map, and a map of a user array is
    an allocated object that is a user map. *)
Definition layers (st : state) : Prop :=
  (forall mode l, l ∈ default [] (main st !! mode) ->
                  Map.user <$> (heap st !! l) = Some false)
  /\ (forall mode l, l ∈ default [] (user st !! mode) ->
                     Map.user <$> (heap st !! l) = Some true).

(** The default table is the same and its maps are the same objects. *)
Definition defaults_kept (st st' : state) : Prop :=
  main st' = main st
  /\ forall mode l, l ∈ default [] (main st !! mode) -> heap st' !! l = heap st !! l.

(** The operations on the user layer, and a sequence of them run from a
    state. *)
Inductive user_op :=
| OpAddUserMap (r : registration)
| OpRemove (mode : mode_id) (cmd : string)
| OpRemoveAll (mode : mode_id).

Definition run_user_op (canonicalKeys : string -> string) (st : state) (op : user_op)
    : state :=
  match op with
  | OpAddUserMap r =>
      snd (addUserMap canonicalKeys (r_modes r) (r_keys r) (r_description r)
             (r_action r) (r_extra r) st)
  | OpRemove mode cmd => snd (remove mode cmd st)
  | OpRemoveAll mode => snd (removeAll mode st)
  end.

Definition run_user_ops (canonicalKeys : string -> string) (ops : list user_op)
    (st : state) : state :=
  fold_left (run_user_op canonicalKeys) ops st.

(** Every mode of the list has a user array. *)
Definition user_known (st : state) (modes : list mode_id) : Prop :=
  forall mode, mode ∈ modes -> is_Some (user st !! mode).

(** Some mode of the list has a user map with the name. *)
Definition some_occurrence (st : state) (modes : list mode_id) (cmd : string) : Prop :=
  exists mode, mode ∈ modes /\ ~ no_occurrence st mode cmd.

(** ** The states of the examples *)

(** The state in which mode [0] holds a default and a user mapping of
    [a], and mode [1], which is [modes.NORMAL], holds none. *)
Definition st_mode0 : state :=
  snd (addUserMap plain_keys [0%N] ["a"] "" f0 None
         (snd (add plain_keys [0%N] ["a"] "" f0 None (Mappings [0%N; 1%N] None)))).

(** A state with a user mapping and a default mapping of [a] in mode [1]. *)
Definition st_mode1 : state :=
  snd (addUserMap plain_keys [1%N] ["a"] "" f0 None
         (snd (add plain_keys [1%N] ["a"] "" f0 None (Mappings [0%N; 1%N] None)))).

(** A default mapping of [d] in mode [1] that accepts a motion and a count,
    and the state in which it is the only mapping. *)
Definition d_map : Map.t :=
  Map_init plain_keys [1%N] ["d"] "Delete" f0
    (Some (ExtraInfo.mk false true true false false false None false)).

Definition st_d : state :=
  snd (add plain_keys [1%N] ["d"] "Delete" f0
         (Some (ExtraInfo.mk false true true false false false None false))
         (Mappings [0%N; 1%N] None)).

(** The mapping of ["."] as the only mapping. *)
Definition dot_map : Map.t := Map_init plain_keys [1%N] ["."] "Repeat" f0 None.

Definition st_dot : state :=
  snd (add plain_keys [1%N] ["."] "Repeat" f0 None (Mappings [0%N; 1%N] None)).

(** Three default mappings [d], [dw], [dd], and two user mappings [<C-x>]
    and [<a], in mode [1]. *)
Definition st_candidates : state :=
  snd (addUserMap plain_keys [1%N] ["<a"] "" f0 None
    (snd (addUserMap plain_keys [1%N] ["<C-x>"] "" f0 None
      (snd (add plain_keys [1%N] ["dd"] "" f0 None
        (snd (add plain_keys [1%N] ["dw"] "" f0 None
          (snd (add plain_keys [1%N] ["d"] "" f0 None
            (Mappings [0%N; 1%N] None)))))))))).

(** One user mapping of [a] for the modes [1] and [2]. *)
Definition st_shared : state :=
  snd (addUserMap plain_keys [1%N; 2%N] ["a"] "" f0 None (Mappings [0%N; 1%N; 2%N] None)).

(** A user mapping registered in mode [1] with the key [a] given twice,
    then a second user mapping of [a] in mode [1]. *)
Definition st_twice : state :=
  snd (addUserMap plain_keys [1%N] ["a"] "Second" f0 None
         (snd (addUserMap plain_keys [1%N] ["a"; "a"] "First" f0 None
                (Mappings [0%N; 1%N] None)))).

(** ** Basic facts about the helpers *)

Lemma indexOf_from_found (xs : list string) (x : string) (i : Z) :
  (0 <= i)%Z ->
  (0 <=? indexOf_from xs x i)%Z = true <-> x ∈ xs.
Proof.
  revert i. induction xs as [|y ys IH]; intros i Hi; simpl.
  - split; [intros H; discriminate | intros H; inversion H].
  - destruct (String.eqb_spec y x) as [->|Hne].
    + split; [intros _; left | intros _; apply Z.leb_le; lia].
    + rewrite IH by lia. split.
      * intros H. now right.
      * intros H. inversion H; subst; [congruence | assumption].
Qed.

(** [hasName] is membership in the names of the object. *)
Lemma hasName_true (h : list Map.t) (this : loc) (name : string) :
  hasName h this name = true <-> name ∈ names_of h this.
Proof. unfold hasName, indexOf. apply indexOf_from_found. lia. Qed.

Lemma hasName_false (h : list Map.t) (this : loc) (name : string) :
  hasName h this name = false <-> name ∉ names_of h this.
Proof.
  rewrite <- hasName_true. destruct (hasName h this name); split; congruence.
Qed.

(** [getMap_loop] returns the first map of the array that has the name. *)
Lemma getMap_loop_Some (h : list Map.t) (cmd : string) (maps : list loc) (map : loc) :
  getMap_loop h cmd maps = Some map <->
  exists pre post,
    maps = (pre ++ map :: post)%list /\
    cmd ∈ names_of h map /\
    (forall m, m ∈ pre -> cmd ∉ names_of h m).
Proof.
  induction maps as [|m0 rest IH]; simpl.
  - split; [discriminate | intros (pre & post & H & _)].
    destruct pre; discriminate.
  - destruct (hasName h m0 cmd) eqn:E.
    + apply hasName_true in E. split.
      * intros [= <-]. exists [], rest. split; [reflexivity|].
        split; [assumption|]. intros m Hm. inversion Hm.
      * intros (pre & post & Hmaps & Hin & Hpre).
        destruct pre as [|p pre]; simpl in Hmaps.
        -- congruence.
        -- injection Hmaps as <- _. exfalso. apply (Hpre m0); [left | assumption].
    + apply hasName_false in E. rewrite IH. split.
      * intros (pre & post & -> & Hin & Hpre).
        exists (m0 :: pre), post. split; [reflexivity|]. split; [assumption|].
        intros m Hm. inversion Hm; subst; auto.
      * intros (pre & post & Hmaps & Hin & Hpre).
        destruct pre as [|p pre]; simpl in Hmaps.
        -- injection Hmaps as -> _. contradiction.
        -- injection Hmaps as <- ->. exists pre, post.
           split; [reflexivity|]. split; [assumption|].
           intros m Hm. apply Hpre. now right.
Qed.

Lemma getMap_loop_None (h : list Map.t) (cmd : string) (maps : list loc) :
  getMap_loop h cmd maps = None <-> (forall m, m ∈ maps -> cmd ∉ names_of h m).
Proof.
  induction maps as [|m0 rest IH]; simpl.
  - split; [intros _ m Hm; inversion Hm | reflexivity].
  - destruct (hasName h m0 cmd) eqn:E.
    + apply hasName_true in E. split; [discriminate|].
      intros H. exfalso. apply (H m0); [left | assumption].
    + apply hasName_false in E. rewrite IH. split.
      * intros H m Hm. inversion Hm; subst; auto.
      * intros H m Hm. apply H. now right.
Qed.

Lemma getMap_loop_elem (h : list Map.t) (cmd : string) (maps : list loc) (map : loc) :
  getMap_loop h cmd maps = Some map -> map ∈ maps /\ cmd ∈ names_of h map.
Proof.
  intros (pre & post & -> & Hin & _)%getMap_loop_Some. split; [|assumption].
  apply elem_of_app. right. left.
Qed.

(** ** Registration of default mappings *)

Lemma lookup_new_object (h : list Map.t) (m : Map.t) :
  (h ++ [m])%list !! length h = Some m.
Proof. rewrite lookup_app_r by lia. now rewrite Nat.sub_diag. Qed.

(** [mappings.add] never completes abruptly, whatever it is given. *)
Lemma add_returns canonicalKeys modes keys description action extra st :
  exists st', add canonicalKeys modes keys description action extra st = (Return tt, st').
Proof. unfold add, bind, new_Map, modify. eexists. reflexivity. Qed.

(** C1, as amended: registering a default binding whose mode set is empty
    raises no error; the call returns normally, and both the default and
    the user table are exactly as they were: no binding is added to any
    mode. *)
Theorem add_empty_modes_returns_tables_unchanged
    canonicalKeys keys description action extra st :
  exists st',
    add canonicalKeys [] keys description action extra st = (Return tt, st')
    /\ main st' = main st
    /\ user st' = user st.
Proof.
  unfold add, bind, new_Map, modify, addMap. cbn [heap set_heap].
  rewrite lookup_new_object. cbn [Map_init Map.user Map.modes fold_left].
  destruct (ExtraInfo.user (default ExtraInfo.empty extra) || false);
    eexists; (split; [reflexivity|]); split; reflexivity.
Qed.

(** C1, as stated, fails: a registration with no mode does not fail. *)
Lemma add_empty_modes_does_not_fail :
  ~ (exists e st',
       add plain_keys [] ["x"] "" f0 None (Mappings [1%N] None) = (Throw e, st')).
Proof. intros (e & st' & H). discriminate H. Qed.

(** ** Lookup *)

Section Lookup.
Variable NORMAL : mode_id.

Lemma getMap_None mode cmd stack st :
  getMap mode cmd stack st = None <->
  forall m, m ∈ default [] (stack !! mode) -> cmd ∉ names_of (heap st) m.
Proof. apply getMap_loop_None. Qed.

Lemma getMap_Some_elem mode cmd stack st map :
  getMap mode cmd stack st = Some map ->
  map ∈ default [] (stack !! mode) /\ cmd ∈ names_of (heap st) map.
Proof. apply getMap_loop_elem. Qed.

Lemma getMap_is_Some mode cmd stack st m :
  m ∈ default [] (stack !! mode) -> cmd ∈ names_of (heap st) m ->
  exists map, getMap mode cmd stack st = Some map.
Proof.
  intros Hin Hname. destruct (getMap mode cmd stack st) as [map|] eqn:E.
  - now exists map.
  - exfalso. exact (proj1 (getMap_None _ _ _ _) E m Hin Hname).
Qed.

(** C4, as amended: with [m'] the mode itself when it is not [0] and
    [modes.NORMAL] when it is [0], a lookup in [mode] returns a user
    binding of [m'] matching the name whenever one exists, whether or not a
    default binding matches too, and that binding is the first one: the user
    maps [pre] before it in the array of [m'] do not have the name; and when
    no binding of either layer of [m'] matches, it returns [null], without
    an error. *)
Theorem get_user_shadows_default (st : state) (mode : mode_id) (name : string) :
  let m' := if (mode =? 0)%N then NORMAL else mode in
  (forall u,
      user_match st m' name u ->
      exists u',
        get NORMAL mode name st = (Return (Some u'), st)
        /\ user_match st m' name u'
        /\ getMap m' name (user st) st = Some u'
        /\ exists pre post,
            default [] (user st !! m') = (pre ++ u' :: post)%list
            /\ forall m, m ∈ pre -> name ∉ names_of (heap st) m)
  /\ ((forall map, ~ user_match st m' name map /\ ~ default_match st m' name map) ->
      get NORMAL mode name st = (Return None, st)).
Proof.
  intros m'. unfold get, gets, or_NORMAL. fold m'. split.
  - intros u [Hu Hun].
    destruct (getMap_is_Some m' name (user st) st u Hu Hun) as [u' E].
    exists u'. rewrite E. split; [reflexivity|].
    split; [now apply getMap_Some_elem in E|]. split; [reflexivity|].
    unfold getMap in E.
    apply getMap_loop_Some in E as (pre & post & Hmaps & _ & Hpre).
    now exists pre, post.
  - intros Hnone.
    assert (getMap m' name (user st) st = None) as ->.
    { apply getMap_None. intros m Hm Hn. apply (proj1 (Hnone m)). now split. }
    assert (getMap m' name (main st) st = None) as ->.
    { apply getMap_None. intros m Hm Hn. apply (proj2 (Hnone m)). now split. }
    reflexivity.
Qed.

(** The same, read for a mode that is not [0]. *)
Lemma get_nonzero_mode (st : state) (mode : mode_id) (name : string) u :
  mode <> 0%N ->
  getMap mode name (user st) st = Some u ->
  get NORMAL mode name st = (Return (Some u), st).
Proof.
  intros Hm E. unfold get, gets, or_NORMAL.
  destruct (N.eqb_spec mode 0) as [?|_]; [contradiction|]. now rewrite E.
Qed.

End Lookup.

(** C4, as stated, fails at mode [0]: both layers of mode [0] match [a],
    and the lookup in mode [0] returns [null]. *)
Lemma get_mode0_misses_user_binding :
  user_match st_mode0 0%N "a" 1%nat
  /\ default_match st_mode0 0%N "a" 0%nat
  /\ get 1%N 0%N "a" st_mode0 = (Return None, st_mode0).
Proof.
  split; [|split].
  - split; vm_compute; [left | left].
  - split; vm_compute; [left | left].
  - vm_compute. reflexivity.
Qed.

Lemma get_user_shadows_default_witness :
  exists u', get 1%N 1%N "a" st_mode1 = (Return (Some u'), st_mode1)
             /\ user_match st_mode1 1%N "a" u'
             /\ getMap 1%N "a" (user st_mode1) st_mode1 = Some u'
             /\ exists pre post,
                 default [] (user st_mode1 !! 1%N) = (pre ++ u' :: post)%list
                 /\ forall m, m ∈ pre -> "a" ∉ names_of (heap st_mode1) m.
Proof.
  apply (proj1 (get_user_shadows_default 1%N st_mode1 1%N "a") 1%nat).
  split; vm_compute; left.
Defined.

(** ** Execution and the repeat slot *)

Section Execute.
Variable apply : jsfun -> loc -> list value -> M value.

(** What [execute] does, in one equation. *)
Lemma execute_unfold (st : state) (this : loc) (m : Map.t) (motion count argument : value) :
  heap st !! this = Some m ->
  execute apply this motion count argument st =
  apply (Map.action m) this (arguments_for m motion count argument)
    (if first_name_is_not_dot m
     then set_repeat (Some (Closure this (arguments_for m motion count argument))) st
     else st).
Proof.
  intros Hm. unfold execute, arguments_for, push. rewrite Hm.
  destruct (Map.motion m), (Map.count m), (Map.arg m); reflexivity.
Qed.

(** C7: [execute] builds the argument list from [motion], [count] and
    [argument], in this order, each only if the map accepts it, applies
    the action to the map and this list, and its completion is the one of
    the action (the action runs in the state of the call, up to the
    repeat slot). A map that accepts a motion and a count and no argument,
    called with ("w", 5, "x"), has its action applied to ["w", 5]. *)
Theorem execute_applies_action_to_accepted_arguments
    (st : state) (this : loc) (m : Map.t) (motion count argument : value) :
  heap st !! this = Some m ->
  (exists r,
      execute apply this motion count argument st =
      apply (Map.action m) this (arguments_for m motion count argument) (set_repeat r st))
  /\ (Map.motion m = true -> Map.count m = true -> Map.arg m = false ->
      exists r,
        execute apply this (Str "w") (Number 5) (Str "x") st =
        apply (Map.action m) this [Str "w"; Number 5] (set_repeat r st)).
Proof.
  intros Hm.
  assert (forall mo c a, exists r,
             execute apply this mo c a st =
             apply (Map.action m) this (arguments_for m mo c a) (set_repeat r st)) as H.
  { intros mo c a. rewrite (execute_unfold st this m) by assumption.
    destruct (first_name_is_not_dot m).
    - eexists. reflexivity.
    - exists (repeat st). now destruct st. }
  split; [apply H|].
  intros Hmo Hc Ha. destruct (H (Str "w") (Number 5) (Str "x")) as [r Hr].
  exists r. rewrite Hr. unfold arguments_for. now rewrite Hmo, Hc, Ha.
Qed.

Lemma first_name_is_not_dot_true (m : Map.t) :
  first_name_is_not_dot m = true <-> ~ primary_name_is_dot m.
Proof.
  unfold first_name_is_not_dot, primary_name_is_dot.
  destruct (Map.names m !! 0%nat) as [n|]; [|split; [discriminate | reflexivity]].
  destruct (String.eqb_spec n "."); simpl; split; congruence.
Qed.

Lemma first_name_is_not_dot_false (m : Map.t) :
  first_name_is_not_dot m = false <-> primary_name_is_dot m.
Proof.
  unfold first_name_is_not_dot, primary_name_is_dot.
  destruct (Map.names m !! 0%nat) as [n|]; [|split; discriminate].
  destruct (String.eqb_spec n "."); simpl; split; congruence.
Qed.

(** C8: when the first name of the map is not ["."], [execute] stores in
    [mappings.repeat], before it runs the action, a closure of no
    argument which, when called, applies the action of the same map to
    the same map and the same arguments; the slot still holds it after
    the call unless the action itself assigns the slot. When the first
    name is ["."], [execute] runs the action in the state as it is and
    assigns nothing to the slot. *)
Theorem execute_records_repeat_unless_dot
    (st : state) (this : loc) (m : Map.t) (motion count argument : value) :
  heap st !! this = Some m ->
  let args := arguments_for m motion count argument in
  let replay := Closure this args in
  (~ primary_name_is_dot m ->
     execute apply this motion count argument st =
     apply (Map.action m) this args (set_repeat (Some replay) st)
     /\ (forall st' m', heap st' !! this = Some m' -> Map.action m' = Map.action m ->
           call_closure apply replay st' = apply (Map.action m) this args st')
     /\ (keeps_repeat apply (Map.action m) ->
           repeat (snd (execute apply this motion count argument st)) = Some replay))
  /\ (primary_name_is_dot m ->
     execute apply this motion count argument st = apply (Map.action m) this args st
     /\ (keeps_repeat apply (Map.action m) ->
           repeat (snd (execute apply this motion count argument st)) = repeat st)).
Proof.
  intros Hm args replay. split.
  - intros Hdot%first_name_is_not_dot_true.
    rewrite (execute_unfold st this m) by assumption. rewrite Hdot.
    split; [reflexivity|]. split.
    + intros st' m' Hm' Hact. unfold call_closure, replay. simpl.
      now rewrite Hm', Hact.
    + intros Hkeep. now rewrite Hkeep.
  - intros Hdot%first_name_is_not_dot_false.
    rewrite (execute_unfold st this m) by assumption. rewrite Hdot.
    split; [reflexivity|]. intros Hkeep. now rewrite Hkeep.
Qed.

End Execute.

Lemma execute_applies_action_to_accepted_arguments_witness :
  exists r,
    execute count_args 0%nat (Str "w") (Number 5) (Str "x") st_d =
    count_args f0 0%nat [Str "w"; Number 5] (set_repeat r st_d).
Proof.
  apply (proj2 (execute_applies_action_to_accepted_arguments count_args st_d 0%nat d_map
                  Undefined Undefined Undefined eq_refl));
    reflexivity.
Defined.

Lemma execute_records_repeat_unless_dot_witness :
  repeat (snd (execute count_args 0%nat (Str "w") (Number 5) (Str "x") st_d))
    = Some (Closure 0%nat [Str "w"; Number 5])
  /\ repeat (snd (execute count_args 0%nat Undefined (Number 2) Undefined st_dot))
    = repeat st_dot.
Proof.
  split.
  - refine (proj2 (proj2 (proj1 (execute_records_repeat_unless_dot count_args st_d 0%nat d_map
                     (Str "w") (Number 5) (Str "x") eq_refl) _)) _).
    + unfold primary_name_is_dot. simpl. discriminate.
    + intros this args st. reflexivity.
  - refine (proj2 (proj2 (execute_records_repeat_unless_dot count_args st_dot 0%nat dot_map
                     Undefined (Number 2) Undefined eq_refl) _) _).
    + reflexivity.
    + intros this args st. reflexivity.
Defined.

(** ** Leader expansion *)

(** A replacement text without a dollar sign is inserted as it is. *)
Lemma GetSubstitution_no_dollar (matched before after replacement : string) :
  no_dollar replacement = true ->
  GetSubstitution matched before after replacement = replacement.
Proof.
  induction replacement as [|c tl IH]; simpl; [reflexivity|].
  destruct (Ascii.eqb c "$"); simpl; [discriminate|].
  intros H. now rewrite IH.
Qed.

(** [expandLeader] reads the state and returns a string: it has nothing to
    mutate the state with. When the text holds the token, in whatever case,
    and the leader has no dollar sign, the first token is replaced by the
    leader, and the rest of the text is kept. *)
Lemma expandLeader_plain_leader (keyString before token after leader : string) (st : state) :
  search "<Leader>" keyString = Some (before, token, after) ->
  mapleader st = Some leader ->
  no_dollar leader = true ->
  expandLeader keyString st = before +:+ leader +:+ after.
Proof.
  intros Hs Hl Hd.
  unfold expandLeader, replace_first_ci, getMapLeader_value, variableReference_mapleader.
  rewrite Hs, Hl.
  now rewrite GetSubstitution_no_dollar.
Qed.

(** A text without the token is returned as it is. *)
Lemma expandLeader_no_token (keyString : string) (st : state) :
  search "<Leader>" keyString = None -> expandLeader keyString st = keyString.
Proof. intros Hs. unfold expandLeader, replace_first_ci. now rewrite Hs. Qed.

(** With the leader [,], in both spellings of the token; and with no
    [mapleader] variable, the backslash. *)
Example expandLeader_comma :
  expandLeader "<Leader>w" (Mappings [] (Some ",")) = ",w"
  /\ expandLeader "<LEADER>w" (Mappings [] (Some ",")) = ",w"
  /\ expandLeader "<Leader>w" (Mappings [] None) = "\w"
  /\ getMapLeader (Mappings [] None) = (Return "\", Mappings [] None).
Proof. repeat split. Qed.

(** C9 does not hold of the code when the leader holds a dollar pattern
    of [String.prototype.replace]: with the leader [$$] the token is
    replaced by a single [$], and with the leader [$&] by the token
    itself, not by the leader string. *)
Theorem expandLeader_dollar_leader :
  expandLeader "<Leader>w" (Mappings [] (Some "$$")) = "$w"
  /\ expandLeader "<Leader>w" (Mappings [] (Some "$&")) = "<Leader>w"
  /\ expandLeader "x<leader>w" (Mappings [] (Some "$'$`")) = "xwxw".
Proof. repeat split. Qed.

(** ** Prefix candidates *)

Lemma prefix_true_iff (p n : string) :
  String.prefix p n = true <-> exists suffix, n = p +:+ suffix.
Proof.
  revert n. induction p as [|a p IH]; intros n.
  - destruct n; simpl; (split; [intros _; eexists; reflexivity | reflexivity]).
  - destruct n as [|b n]; simpl.
    + split; [discriminate | intros [s Hs]; discriminate].
    + destruct (ascii_dec a b) as [->|Hne].
      * rewrite IH. split; intros [s Hs]; exists s; [now rewrite Hs | now injection Hs].
      * split; [discriminate | intros [s Hs]; injection Hs; congruence].
Qed.

Lemma length_app_string (p s : string) :
  String.length (p +:+ s) = (String.length p + String.length s)%nat.
Proof. induction p as [|a p IH]; simpl; [reflexivity | now rewrite IH]. Qed.

Lemma extends_prefix_iff (prefix name : string) :
  indexOf_is_0 name prefix && (String.length prefix <? String.length name)%nat = true
  <-> extends_prefix prefix name.
Proof.
  unfold indexOf_is_0, extends_prefix. rewrite andb_true_iff, prefix_true_iff, Nat.ltb_lt.
  split.
  - intros [[s ->] Hlen]. exists s. split; [|reflexivity].
    intros ->. rewrite length_app_string in Hlen. simpl in Hlen. lia.
  - intros [s [Hs ->]]. split; [now exists s|].
    rewrite length_app_string. destruct s; [congruence | simpl; lia].
Qed.

Lemma dots_then_gt_iff (s : string) :
  dots_then_gt s = true <->
  exists mid rest,
    (forall c, In c (list_ascii_of_string mid) -> line_terminator c = false)
    /\ s = mid +:+ ">" +:+ rest.
Proof.
  induction s as [|c s IH]; simpl.
  - split; [discriminate | intros (mid & rest & _ & H)]. destruct mid; discriminate.
  - destruct (Ascii.eqb_spec c ">") as [->|Hc].
    + split; [intros _ | reflexivity]. exists "", s. split; [intros c []| reflexivity].
    + destruct (line_terminator c) eqn:Hlt.
      * split; [discriminate|]. intros (mid & rest & Hmid & H).
        destruct mid as [|d mid]; simpl in H; injection H as -> ->; [congruence|].
        rewrite Hmid in Hlt; [discriminate | now left].
      * rewrite IH. split.
        -- intros (mid & rest & Hmid & ->). exists (String c mid), rest.
           split; [|reflexivity]. intros d [<-|Hd]; auto.
        -- intros (mid & rest & Hmid & H).
           destruct mid as [|d mid]; simpl in H; injection H as -> ->; [congruence|].
           exists mid, rest. split; [|reflexivity]. intros e He. apply Hmid. now right.
Qed.

Lemma looks_bracketed_iff (name : string) :
  looks_bracketed name = true <-> bracketed_at_start name.
Proof.
  unfold looks_bracketed, bracketed_at_start. split.
  - destruct name as [|a [|c rest]]; try discriminate.
    rewrite !andb_true_iff, negb_true_iff, dots_then_gt_iff.
    intros [[Ha%Ascii.eqb_eq Hc] (mid & rest' & Hmid & ->)]. subst a.
    exists (String c mid), rest'. split; [discriminate|]. split; [|reflexivity].
    intros d [<-|Hd]; auto.
  - intros (mid & rest & Hne & Hmid & ->).
    destruct mid as [|c mid]; [congruence|]. simpl.
    rewrite (Hmid c) by now left. simpl. apply dots_then_gt_iff.
    exists mid, rest. split; [|reflexivity]. intros d Hd. apply Hmid. now right.
Qed.

Lemma candidate_name_iff (prefix name : string) :
  candidate_name prefix name = true <-> is_candidate prefix name.
Proof.
  unfold candidate_name, is_candidate.
  rewrite andb_true_iff, extends_prefix_iff, orb_true_iff, !negb_true_iff.
  rewrite <- looks_bracketed_iff. split; intros [He Hb]; (split; [assumption|]).
  - intros ->. destruct Hb as [Hb|Hb]; [discriminate | now rewrite Hb].
  - destruct (String.eqb_spec prefix "<") as [Hp|Hp]; [right | now left].
    destruct (looks_bracketed name); [now destruct (Hb Hp) | reflexivity].
Qed.

(** The loops of [getCandidates] push one copy of a map for each of its
    names that passes the test, in the order of the arrays. *)
Lemma getCandidates_names_eq (prefix : string) (map : loc) (names : list string)
    (matches : list loc) :
  getCandidates_names prefix map names matches =
  (matches ++ List.repeat map (length (List.filter (candidate_name prefix) names)))%list.
Proof.
  unfold getCandidates_names. revert matches.
  induction names as [|name names IH]; intros matches; simpl.
  - now rewrite app_nil_r.
  - rewrite IH. destruct (candidate_name prefix name); simpl; [|reflexivity].
    unfold push. now rewrite <- app_assoc.
Qed.

Lemma getCandidates_maps_eq (h : list Map.t) (prefix : string) (mappings matches : list loc) :
  getCandidates_maps h prefix mappings matches =
  (matches ++
   flat_map (fun map =>
     List.repeat map (length (List.filter (candidate_name prefix) (names_of h map))))
     mappings)%list.
Proof.
  unfold getCandidates_maps. revert matches.
  induction mappings as [|map mappings IH]; intros matches; simpl.
  - now rewrite app_nil_r.
  - rewrite IH, getCandidates_names_eq. now rewrite <- app_assoc.
Qed.

Lemma elem_of_getCandidates_maps (h : list Map.t) (prefix : string) (mappings : list loc)
    (map : loc) :
  map ∈ getCandidates_maps h prefix mappings [] <->
  map ∈ mappings /\ exists name, name ∈ names_of h map /\ is_candidate prefix name.
Proof.
  rewrite getCandidates_maps_eq. simpl. rewrite !list_elem_of_In, in_flat_map. split.
  - intros (m & Hm & Hrep). apply repeat_spec in Hrep as Heq. subst m.
    split; [assumption|].
    destruct (List.filter (candidate_name prefix) (names_of h map)) as [|name l] eqn:E;
      [inversion Hrep|].
    assert (In name (List.filter (candidate_name prefix) (names_of h map))) as Hin
      by (rewrite E; now left).
    apply filter_In in Hin as [Hin Hc]. exists name.
    split; [now apply list_elem_of_In | now apply candidate_name_iff].
  - intros (Hm & name & Hin & Hc). exists map. split; [assumption|].
    assert (In name (List.filter (candidate_name prefix) (names_of h map))) as Hf.
    { apply filter_In. split; [now apply list_elem_of_In | now apply candidate_name_iff]. }
    destruct (List.filter (candidate_name prefix) (names_of h map)); [inversion Hf | now left].
Qed.

(** C5: for a mode that has both its tables, [getCandidates] returns,
    without an error and without a change of state, exactly the maps of
    [user[mode]] and [main[mode]] one of whose names starts with the prefix
    and is strictly longer, where for the prefix [<] a name that matches
    [^<.+>] does not count. So for the prefix [d] the names [dw] and [dd]
    count and [d] does not, and for the prefix [<] the name [<C-x>] does
    not count and [<a] does. *)
Theorem getCandidates_exactly_longer_names
    (st : state) (mode : mode_id) (prefix : string) (u d : list loc) :
  user st !! mode = Some u ->
  main st !! mode = Some d ->
  (exists matches,
      getCandidates mode prefix st = (Return matches, st)
      /\ forall map,
          map ∈ matches <->
          map ∈ (u ++ d)%list
          /\ exists name, name ∈ names_of (heap st) map /\ is_candidate prefix name)
  /\ (is_candidate "d" "dw" /\ is_candidate "d" "dd" /\ ~ is_candidate "d" "d")
  /\ (~ is_candidate "<" "<C-x>" /\ is_candidate "<" "<a").
Proof.
  intros Hu Hd. split; [|split].
  - unfold getCandidates, attempt. rewrite Hu, Hd. eexists. split; [reflexivity|].
    intros map. apply elem_of_getCandidates_maps.
  - repeat split; try (apply candidate_name_iff; reflexivity).
    intros H%candidate_name_iff. discriminate H.
  - split; [|apply candidate_name_iff; reflexivity].
    intros H%candidate_name_iff. discriminate H.
Qed.

(** Every copy of a map in the result stands for one of its names. *)
Lemma getCandidates_one_copy_per_name
    (st : state) (mode : mode_id) (prefix : string) (u d : list loc) :
  user st !! mode = Some u ->
  main st !! mode = Some d ->
  getCandidates mode prefix st =
  (Return
     (flat_map (fun map =>
        List.repeat map
          (length (List.filter (candidate_name prefix) (names_of (heap st) map))))
        (u ++ d)%list), st).
Proof.
  intros Hu Hd. unfold getCandidates, attempt. rewrite Hu, Hd.
  now rewrite getCandidates_maps_eq.
Qed.

(** A mode without tables makes [getCandidates] fail. *)
Lemma getCandidates_unknown_mode (st : state) (mode : mode_id) (prefix : string) :
  user st !! mode = None -> getCandidates mode prefix st = (Throw TypeError, st).
Proof. intros Hu. unfold getCandidates, attempt. now rewrite Hu. Qed.

Example getCandidates_d :
  fst (getCandidates 1%N "d" st_candidates) = Return [1%nat; 2%nat]
  /\ fst (getCandidates 1%N "<" st_candidates) = Return [4%nat].
Proof. split; vm_compute; reflexivity. Qed.

Lemma getCandidates_exactly_longer_names_witness :
  exists matches,
    getCandidates 1%N "d" st_candidates = (Return matches, st_candidates)
    /\ forall map,
        map ∈ matches <->
        map ∈ ([3%nat; 4%nat] ++ [0%nat; 1%nat; 2%nat])%list
        /\ exists name,
            name ∈ names_of (heap st_candidates) map /\ is_candidate "d" name.
Proof.
  apply (proj1 (getCandidates_exactly_longer_names st_candidates 1%N "d"
                  [3%nat; 4%nat] [0%nat; 1%nat; 2%nat] eq_refl eq_refl)).
Defined.

(** ** Removal of a user mapping *)

Lemma removeMap_names_None (cmd : string) (names : list string) (j : nat) :
  removeMap_names cmd names j = None <-> cmd ∉ names.
Proof.
  revert j. induction names as [|n names IH]; intros j; simpl.
  - split; [intros _ H; inversion H | reflexivity].
  - destruct (String.eqb_spec n cmd) as [->|Hne].
    + split; [discriminate | intros H; exfalso; apply H; left].
    + rewrite IH, not_elem_of_cons. split; [intros H; split; congruence | intros [_ H]; exact H].
Qed.

Lemma removeMap_names_first (cmd : string) (ns1 ns2 : list string) (j : nat) :
  cmd ∉ ns1 ->
  removeMap_names cmd (ns1 ++ cmd :: ns2)%list j = Some (j + length ns1)%nat.
Proof.
  revert j. induction ns1 as [|n ns1 IH]; intros j Hnot; simpl.
  - rewrite String.eqb_refl. f_equal. lia.
  - apply not_elem_of_cons in Hnot as [Hne Hnot].
    destruct (String.eqb_spec n cmd) as [->|_]; [congruence|].
    rewrite IH by assumption. f_equal. lia.
Qed.

Lemma removeMap_names_Some (cmd : string) (names : list string) (j k : nat) :
  removeMap_names cmd names j = Some k ->
  exists ns1 ns2,
    names = (ns1 ++ cmd :: ns2)%list /\ (cmd ∉ ns1) /\ k = (j + length ns1)%nat.
Proof.
  revert j. induction names as [|n names IH]; intros j; simpl; [discriminate|].
  destruct (String.eqb_spec n cmd) as [->|Hne].
  - intros [= <-]. exists [], names. split; [reflexivity|]. split; [|simpl; lia].
    intros H. inversion H.
  - intros (ns1 & ns2 & -> & Hnot & ->)%IH. exists (n :: ns1), ns2.
    split; [reflexivity|]. split; [|simpl; lia].
    apply not_elem_of_cons. split; congruence.
Qed.

Lemma removeMap_maps_None (h : list Map.t) (cmd : string) (maps : list loc) (i : nat) :
  removeMap_maps h cmd maps i = None <-> (forall m, m ∈ maps -> cmd ∉ names_of h m).
Proof.
  revert i. induction maps as [|m0 maps IH]; intros i; simpl.
  - split; [intros _ m H; inversion H | reflexivity].
  - destruct (removeMap_names cmd (names_of h m0) 0) as [j|] eqn:E.
    + split; [discriminate|]. intros H. exfalso.
      assert (removeMap_names cmd (names_of h m0) 0 = None) as E'
        by (apply removeMap_names_None, H; left).
      congruence.
    + apply removeMap_names_None in E. rewrite IH. split.
      * intros H m Hm. apply elem_of_cons in Hm as [->|Hm]; auto.
      * intros H m Hm. apply H. now right.
Qed.

Lemma removeMap_maps_first (h : list Map.t) (cmd : string) (pre post : list loc)
    (map : loc) (ns1 ns2 : list string) (i : nat) :
  (forall m, m ∈ pre -> cmd ∉ names_of h m) ->
  names_of h map = (ns1 ++ cmd :: ns2)%list ->
  cmd ∉ ns1 ->
  removeMap_maps h cmd (pre ++ map :: post)%list i
  = Some ((i + length pre)%nat, map, length ns1).
Proof.
  revert i. induction pre as [|p pre IH]; intros i Hpre Hnames Hnot; simpl.
  - rewrite Hnames, removeMap_names_first by assumption. do 3 f_equal. lia.
  - assert (removeMap_names cmd (names_of h p) 0 = None) as ->
      by (apply removeMap_names_None, Hpre; left).
    rewrite IH; [do 3 f_equal; lia | | assumption | assumption].
    intros m Hm. apply Hpre. now right.
Qed.

Lemma removeMap_maps_Some (h : list Map.t) (cmd : string) (maps : list loc) (i k j : nat)
    (map : loc) :
  removeMap_maps h cmd maps i = Some (k, map, j) ->
  exists pre post ns1 ns2,
    maps = (pre ++ map :: post)%list
    /\ (forall m, m ∈ pre -> cmd ∉ names_of h m)
    /\ names_of h map = (ns1 ++ cmd :: ns2)%list
    /\ (cmd ∉ ns1)
    /\ k = (i + length pre)%nat /\ j = length ns1.
Proof.
  revert i. induction maps as [|m0 maps IH]; intros i; simpl; [discriminate|].
  destruct (removeMap_names cmd (names_of h m0) 0) as [j0|] eqn:E.
  - intros [= <- <- <-].
    apply removeMap_names_Some in E as (ns1 & ns2 & Hn & Hnot & ->).
    exists [], maps, ns1, ns2. simpl. repeat split; try assumption; try lia.
    intros m Hm. inversion Hm.
  - apply removeMap_names_None in E.
    intros (pre & post & ns1 & ns2 & -> & Hpre & Hn & Hnot & -> & ->)%IH.
    exists (m0 :: pre), post, ns1, ns2. simpl. repeat split; try assumption; try lia.
    intros m Hm. apply elem_of_cons in Hm as [->|Hm]; auto.
Qed.

(** One of the two holds. *)
Lemma occurrence_cases (st : state) (mode : mode_id) (cmd : string) :
  no_occurrence st mode cmd
  \/ exists pre map post ns1 ns2, first_occurrence st mode cmd pre map post ns1 ns2.
Proof.
  destruct (removeMap_maps (heap st) cmd (default [] (user st !! mode)) 0)
    as [[[k map] j]|] eqn:E.
  - right. apply removeMap_maps_Some in E
      as (pre & post & ns1 & ns2 & Hmaps & Hpre & Hn & Hnot & _ & _).
    exists pre, map, post, ns1, ns2. repeat split; try assumption.
    destruct (user st !! mode) as [maps|]; simpl in Hmaps; [now subst|].
    destruct pre; discriminate.
  - left. unfold no_occurrence. eapply removeMap_maps_None. eassumption.
Qed.

Lemma names_of_nonempty (h : list Map.t) (map : loc) (ns1 ns2 : list string) (n : string) :
  names_of h map = (ns1 ++ n :: ns2)%list ->
  exists m, h !! map = Some m /\ Map.names m = (ns1 ++ n :: ns2)%list.
Proof.
  unfold names_of. destruct (h !! map) as [m|]; simpl.
  - intros H. now exists m.
  - intros H. destruct ns1; discriminate.
Qed.

(** The state after [removeMap] when nothing is found, and when the first
    occurrence is found. *)
Lemma removeMap_no_occurrence (st : state) (mode : mode_id) (cmd : string) :
  no_occurrence st mode cmd -> removeMap mode cmd st = st.
Proof.
  intros H. unfold removeMap.
  now rewrite (proj2 (removeMap_maps_None _ _ _ _) H).
Qed.

Lemma removeMap_first_occurrence (st : state) (mode : mode_id) (cmd : string)
    (pre : list loc) (map : loc) (post : list loc) (ns1 ns2 : list string) :
  first_occurrence st mode cmd pre map post ns1 ns2 ->
  exists m,
    heap st !! map = Some m
    /\ removeMap mode cmd st =
       let st1 := set_heap (<[map := Map.set_names (ns1 ++ ns2)%list m]> (heap st)) st in
       match (ns1 ++ ns2)%list with
       | [] => set_user (<[mode := (pre ++ post)%list]> (user st)) st1
       | _ :: _ => st1
       end.
Proof.
  intros (Hu & Hpre & Hn & Hnot).
  destruct (names_of_nonempty _ _ _ _ _ Hn) as (m & Hm & Hmn).
  exists m. split; [assumption|].
  unfold removeMap. rewrite Hu. simpl.
  rewrite (removeMap_maps_first (heap st) cmd pre post map ns1 ns2 0) by assumption.
  unfold splice_name. rewrite Hm, Hmn, delete_middle. simpl.
  unfold names_of at 1. simpl.
  rewrite list_lookup_insert_eq by (eapply lookup_lt_Some; eassumption).
  simpl. rewrite delete_middle.
  destruct (ns1 ++ ns2)%list; reflexivity.
Qed.

(** What [removeMap] leaves when it finds the name. *)
Lemma removeMap_after (st : state) (mode : mode_id) (cmd : string)
    (pre : list loc) (map : loc) (post : list loc) (ns1 ns2 : list string) :
  first_occurrence st mode cmd pre map post ns1 ns2 ->
  let st' := removeMap mode cmd st in
  names_of (heap st') map = (ns1 ++ ns2)%list
  /\ (forall l, l <> map -> heap st' !! l = heap st !! l)
  /\ user st' !! mode =
     Some (match (ns1 ++ ns2)%list with
           | [] => pre ++ post
           | _ :: _ => pre ++ map :: post
           end)%list
  /\ (forall mode', mode' <> mode -> user st' !! mode' = user st !! mode')
  /\ main st' = main st
  /\ length (heap st') = length (heap st).
Proof.
  intros Hfirst. pose proof Hfirst as (Hu & _).
  destruct (removeMap_first_occurrence _ _ _ _ _ _ _ _ Hfirst) as (m & Hm & ->).
  assert (map < length (heap st))%nat as Hlt by (eapply lookup_lt_Some; eassumption).
  destruct (ns1 ++ ns2)%list as [|n ns] eqn:E; cbn zeta; cbn [heap user main set_user set_heap].
  - split; [unfold names_of; now rewrite list_lookup_insert_eq by assumption|].
    split; [intros l Hl; now rewrite list_lookup_insert_ne by congruence|].
    split; [now rewrite lookup_insert_eq|].
    split; [intros mode' Hne; now rewrite lookup_insert_ne by congruence|].
    split; [reflexivity | apply length_insert].
  - split; [unfold names_of; now rewrite list_lookup_insert_eq by assumption|].
    split; [intros l Hl; now rewrite list_lookup_insert_ne by congruence|].
    split; [assumption|].
    split; [reflexivity|].
    split; [reflexivity | apply length_insert].
Qed.

(** The names of the other maps are what they were. *)
Lemma names_of_ext (h h' : list Map.t) (l : loc) :
  h' !! l = h !! l -> names_of h' l = names_of h l.
Proof. unfold names_of. now intros ->. Qed.

(** C6, as amended: [remove(mode, name)] never fails; it changes nothing
    when no user map of the mode has the name; otherwise it takes out of
    the names of the first user map of the mode that has the name the first
    occurrence of it, and only this, and takes the map out of the user
    table of the mode only when no name is left; the other maps, the user
    tables of the other modes and the default tables are as before.
    Afterwards, for a mode other than [0] and a name that the user table
    of the mode held this once only, the lookup returns [null] when no
    default map of the mode has the name, and the first default map that
    has it otherwise. *)
Theorem remove_first_occurrence_then_get
    (NORMAL : mode_id) (st : state) (mode : mode_id) (cmd : string) :
  let st' := snd (remove mode cmd st) in
  fst (remove mode cmd st) = Return tt
  /\ (no_occurrence st mode cmd -> st' = st)
  /\ (forall pre map post ns1 ns2,
        first_occurrence st mode cmd pre map post ns1 ns2 ->
        names_of (heap st') map = (ns1 ++ ns2)%list
        /\ (forall l, l <> map -> heap st' !! l = heap st !! l)
        /\ user st' !! mode =
           Some (match (ns1 ++ ns2)%list with
                 | [] => pre ++ post
                 | _ :: _ => pre ++ map :: post
                 end)%list
        /\ (forall mode', mode' <> mode -> user st' !! mode' = user st !! mode')
        /\ main st' = main st
        /\ (mode <> 0%N ->
            (cmd ∉ ns2) ->
            (forall m, m ∈ post -> m <> map -> cmd ∉ names_of (heap st) m) ->
            (getMap mode cmd (main st) st = None ->
               get NORMAL mode cmd st' = (Return None, st'))
            /\ (forall d, getMap mode cmd (main st) st = Some d -> d <> map ->
               get NORMAL mode cmd st' = (Return (Some d), st')))).
Proof.
  intros st'. unfold remove, modify in st' |- *. cbn [fst snd] in st' |- *.
  split; [reflexivity|]. split; [apply removeMap_no_occurrence|].
  intros pre map post ns1 ns2 Hfirst.
  destruct (removeMap_after _ _ _ _ _ _ _ _ Hfirst) as (Hn & Hother & Hu' & Hmodes & Hmain & _).
  fold st' in Hn, Hother, Hu', Hmodes, Hmain.
  do 5 (split; [assumption|]).
  intros Hmode Hns2 Hpost.
  destruct Hfirst as (Hu & Hpre & Hnames & Hns1).
  assert (forall l, cmd ∉ names_of (heap st) l -> cmd ∉ names_of (heap st') l) as Hkeep.
  { intros l Hl. destruct (decide (l = map)) as [->|Hne].
    - rewrite Hnames in Hl. exfalso. apply Hl. apply elem_of_app. right. left.
    - now rewrite (names_of_ext _ _ l (Hother l Hne)). }
  assert (getMap mode cmd (user st') st' = None) as Huser.
  { apply getMap_None. intros m Hm.
    destruct (decide (m = map)) as [->|Hne].
    - rewrite Hn. apply not_elem_of_app. split; assumption.
    - apply Hkeep. rewrite Hu' in Hm. simpl in Hm.
      assert (m ∈ pre \/ m ∈ post) as [Hin|Hin].
      { destruct (ns1 ++ ns2)%list; apply elem_of_app in Hm as [Hm|Hm]; auto.
        apply elem_of_cons in Hm as [->|Hm]; [congruence | auto]. }
      + now apply Hpre.
      + now apply Hpost. }
  unfold get, gets, or_NORMAL.
  destruct (N.eqb_spec mode 0) as [?|_]; [contradiction|].
  rewrite Huser, Hmain. cbn [or_else]. split.
  - intros Hnone. f_equal. f_equal.
    apply getMap_None. intros m Hm. apply Hkeep.
    exact (proj1 (getMap_None _ _ _ _) Hnone m Hm).
  - intros d Hd Hne. f_equal. f_equal.
    apply getMap_loop_Some in Hd as (pre' & post' & Hmaps & Hin & Hpre').
    apply getMap_loop_Some. exists pre', post'. split; [assumption|]. split.
    + now rewrite (names_of_ext _ _ d (Hother d Hne)).
    + intros m Hm. apply Hkeep. now apply Hpre'.
Qed.

(** C6, as stated, fails at mode [0]: the default table of mode [0] holds
    a mapping of [a], and after the user mapping of [a] is removed from
    mode [0], the lookup in mode [0] returns [null]. *)
Lemma remove_mode0_then_get_misses_default :
  user_match st_mode0 0%N "a" 1%nat
  /\ default_match st_mode0 0%N "a" 0%nat
  /\ get 1%N 0%N "a" (snd (remove 0%N "a" st_mode0))
     = (Return None, snd (remove 0%N "a" st_mode0)).
Proof.
  split; [|split].
  - split; vm_compute; left.
  - split; vm_compute; left.
  - vm_compute. reflexivity.
Qed.

(** In mode [1], the user mapping of [a] of [st_mode1] shadows the default
    one; once removed, the default one is found. *)
Lemma remove_first_occurrence_then_get_witness :
  get 1%N 1%N "a" (snd (remove 1%N "a" st_mode1))
  = (Return (Some 0%nat), snd (remove 1%N "a" st_mode1)).
Proof.
  pose proof (remove_first_occurrence_then_get 1%N st_mode1 1%N "a") as H.
  cbv zeta in H. destruct H as (_ & _ & H).
  destruct (H [] 1%nat [] [] []) as (_ & _ & _ & _ & _ & Hget).
  - repeat split;
      first [reflexivity | intros m Hm; inversion Hm | intros Hm; inversion Hm].
  - destruct Hget as [_ Hd].
    + discriminate.
    + intros Hin; inversion Hin.
    + intros m Hm; inversion Hm.
    + apply Hd; [reflexivity | discriminate].
Defined.

(** ** Registration of user mappings *)

Lemma addMap_mode_lookup_eq (map : loc) (t : gmap mode_id (list loc)) (mode : mode_id) :
  addMap_mode map t mode !! mode = Some (default [] (t !! mode) ++ [map])%list.
Proof.
  unfold addMap_mode, push. rewrite lookup_insert_eq.
  destruct (t !! mode) as [maps|] eqn:E; [now rewrite E | now rewrite lookup_insert_eq].
Qed.

Lemma addMap_mode_lookup_ne (map : loc) (t : gmap mode_id (list loc)) (mode mode' : mode_id) :
  mode' <> mode -> addMap_mode map t mode !! mode' = t !! mode'.
Proof.
  intros Hne. unfold addMap_mode. rewrite lookup_insert_ne by congruence.
  destruct (t !! mode); [reflexivity | now rewrite lookup_insert_ne by congruence].
Qed.

(** A map stays in an array that later pushes extend. *)
Lemma addMap_mode_keeps (map l : loc) (t : gmap mode_id (list loc)) (mode mode' : mode_id) :
  l ∈ default [] (t !! mode') -> l ∈ default [] (addMap_mode map t mode !! mode').
Proof.
  intros Hl. destruct (decide (mode' = mode)) as [->|Hne].
  - rewrite addMap_mode_lookup_eq. simpl. apply elem_of_app. now left.
  - now rewrite addMap_mode_lookup_ne.
Qed.

Lemma fold_addMap_mode_keeps (map l : loc) (modes : list mode_id)
    (t : gmap mode_id (list loc)) (mode' : mode_id) :
  l ∈ default [] (t !! mode') ->
  l ∈ default [] (fold_left (addMap_mode map) modes t !! mode').
Proof.
  revert t. induction modes as [|mode modes IH]; intros t Hl; simpl; [assumption|].
  apply IH. now apply addMap_mode_keeps.
Qed.

(** After the [forEach] of [addMap], the map is in the array of each of
    its modes. *)
Lemma fold_addMap_mode_elem (map : loc) (modes : list mode_id)
    (t : gmap mode_id (list loc)) (mode : mode_id) :
  mode ∈ modes -> map ∈ default [] (fold_left (addMap_mode map) modes t !! mode).
Proof.
  revert t. induction modes as [|mode0 modes IH]; intros t Hin; simpl.
  - inversion Hin.
  - apply elem_of_cons in Hin as [->|Hin]; [|now apply IH].
    apply fold_addMap_mode_keeps. rewrite addMap_mode_lookup_eq. simpl.
    apply elem_of_app. right. left.
Qed.

Lemma same_but_names_refl (h : list Map.t) : same_but_names h h.
Proof. split; reflexivity. Qed.

Lemma same_but_names_trans (h1 h2 h3 : list Map.t) :
  same_but_names h1 h2 -> same_but_names h2 h3 -> same_but_names h1 h3.
Proof.
  intros [Hl1 H1] [Hl2 H2]. split; [congruence|].
  intros l. now rewrite H2, H1.
Qed.

Lemma removeMap_same_but_names (mode : mode_id) (cmd : string) (st : state) :
  same_but_names (heap st) (heap (removeMap mode cmd st)).
Proof.
  destruct (occurrence_cases st mode cmd) as [Hno|(pre & map & post & ns1 & ns2 & Hfirst)].
  - rewrite removeMap_no_occurrence by assumption. apply same_but_names_refl.
  - destruct (removeMap_after _ _ _ _ _ _ _ _ Hfirst) as (_ & Hother & _ & _ & _ & Hlen).
    split; [assumption|]. intros l.
    destruct (decide (l = map)) as [->|Hne]; [|now rewrite Hother].
    destruct (removeMap_first_occurrence _ _ _ _ _ _ _ _ Hfirst) as (m & Hm & ->).
    assert (map < length (heap st))%nat by (eapply lookup_lt_Some; eassumption).
    destruct (ns1 ++ ns2)%list; cbn zeta; cbn [heap set_heap set_user];
      rewrite list_lookup_insert_eq by assumption; rewrite Hm; reflexivity.
Qed.

Lemma removeMap_main (mode : mode_id) (cmd : string) (st : state) :
  main (removeMap mode cmd st) = main st.
Proof.
  destruct (occurrence_cases st mode cmd) as [Hno|(pre & map & post & ns1 & ns2 & Hfirst)].
  - now rewrite removeMap_no_occurrence.
  - now destruct (removeMap_after _ _ _ _ _ _ _ _ Hfirst) as (_ & _ & _ & _ & Hmain & _).
Qed.

Lemma remove_old_same_but_names (names : list string) (modes : list mode_id) (st : state) :
  same_but_names (heap st) (heap (remove_old names modes st)).
Proof.
  unfold remove_old. revert st.
  induction names as [|name names IH]; intros st; simpl; [apply same_but_names_refl|].
  eapply same_but_names_trans; [|apply IH].
  generalize st. clear. induction modes as [|mode modes IH]; intros st; simpl.
  - apply same_but_names_refl.
  - eapply same_but_names_trans; [apply removeMap_same_but_names | apply IH].
Qed.

Lemma remove_old_main (names : list string) (modes : list mode_id) (st : state) :
  main (remove_old names modes st) = main st.
Proof.
  unfold remove_old. revert st.
  induction names as [|name names IH]; intros st; simpl; [reflexivity|].
  rewrite IH. generalize st. clear.
  induction modes as [|mode modes IH]; intros st; simpl; [reflexivity|].
  now rewrite IH, removeMap_main.
Qed.

(** [mappings.addUserMap] returns normally, and the object it makes, at
    the location that was free, is in the user array of each of its modes;
    the default tables are as before. *)
Lemma addUserMap_stores_object canonicalKeys modes keys description action extra st :
  let map := length (heap st) in
  exists st',
    addUserMap canonicalKeys modes keys description action extra st = (Return tt, st')
    /\ length (heap st') = S (length (heap st))
    /\ (forall mode, mode ∈ modes -> map ∈ default [] (user st' !! mode))
    /\ main st' = main st.
Proof.
  intros map. unfold addUserMap, bind, gets, new_Map, modify.
  eexists. split; [reflexivity|].
  set (m0 := Map_init _ _ _ _ _ _).
  set (st1 := set_heap (heap st ++ [m0])%list st).
  set (st2 := remove_old _ _ st1).
  assert (modes_of (heap st1) (length (heap st)) = modes) as Hmodes.
  { unfold modes_of, st1. cbn [heap set_heap]. now rewrite lookup_new_object. }
  destruct (remove_old_same_but_names
              (names_of (heap st1) (length (heap st)))
              (modes_of (heap st1) (length (heap st))) st1) as [Hlen Hsame].
  fold st2 in Hlen, Hsame.
  assert (exists m, heap st2 !! map = Some m /\ Map.modes m = modes /\ Map.user m = true)
    as (m & Hm & Hmm & Hmu).
  { specialize (Hsame map).
    assert (heap st1 !! map = Some m0) as H1 by apply lookup_new_object.
    rewrite H1 in Hsame.
    destruct (heap st2 !! map) as [m|]; [|discriminate].
    exists m. split; [reflexivity|].
    assert (Map.set_names [] m = Map.set_names [] m0) as Heq
      by (simpl in Hsame; congruence).
    split.
    - apply (f_equal Map.modes) in Heq. exact Heq.
    - apply (f_equal Map.user) in Heq. exact Heq. }
  unfold addMap. fold map. rewrite Hm, Hmu. cbn [heap user main set_user].
  split; [|split].
  - rewrite Hlen. unfold st1. cbn [heap set_heap]. rewrite length_app. simpl. lia.
  - intros mode Hin. rewrite Hmm. now apply fold_addMap_mode_elem.
  - unfold st2. now rewrite remove_old_main.
Qed.

(** ** One object in several modes *)

(** A lookup never returns a map that has no name. *)
Lemma get_never_nameless (NORMAL : mode_id) (st : state) (mode : mode_id) (cmd : string)
    (map : loc) :
  names_of (heap st) map = [] ->
  get NORMAL mode cmd st <> (Return (Some map), st).
Proof.
  intros Hn. unfold get, gets. intros [= H].
  assert (cmd ∈ names_of (heap st) map) as Hin.
  { destruct (getMap (or_NORMAL NORMAL mode) cmd (user st) st) as [u|] eqn:E;
      simpl in H.
    - injection H as ->. exact (proj2 (getMap_Some_elem _ _ _ _ _ E)).
    - exact (proj2 (getMap_Some_elem _ _ _ _ _ H)). }
  rewrite Hn in Hin. inversion Hin.
Qed.

(** C10: [addUserMap] puts one and the same object, the one it has just
    made, in the user array of each of its modes. When a map whose only
    name is [cmd] is the map that [remove(mode, cmd)] reaches (the first
    user map of [mode] that has the name), the removal leaves the object
    without a name; in every other mode whose user array holds the object,
    the array still holds it afterwards, and no lookup of [cmd], in any
    mode, returns it any more. *)
Theorem shared_object_loses_name_in_every_mode :
  (forall canonicalKeys modes keys description action extra st,
      exists st',
        addUserMap canonicalKeys modes keys description action extra st = (Return tt, st')
        /\ forall mode, mode ∈ modes -> length (heap st) ∈ default [] (user st' !! mode))
  /\ (forall (NORMAL : mode_id) (st : state) (mode : mode_id) (cmd : string) (map : loc),
        names_of (heap st) map = [cmd] ->
        getMap mode cmd (user st) st = Some map ->
        let st' := snd (remove mode cmd st) in
        names_of (heap st') map = []
        /\ hasName (heap st') map cmd = false
        /\ (forall mode', mode' <> mode ->
              map ∈ default [] (user st !! mode') ->
              map ∈ default [] (user st' !! mode'))
        /\ (forall mode', get NORMAL mode' cmd st' <> (Return (Some map), st'))).
Proof.
  split.
  - intros canonicalKeys modes keys description action extra st.
    destruct (addUserMap_stores_object canonicalKeys modes keys description action extra st)
      as (st' & Hrun & _ & Hin & _).
    exists st'. split; assumption.
  - intros NORMAL st mode cmd map Hnames Hget st'.
    apply getMap_loop_Some in Hget as (pre & post & Hmaps & _ & Hpre).
    assert (first_occurrence st mode cmd pre map post [] []) as Hfirst.
    { split; [|split; [assumption|split; [assumption|intros H; inversion H]]].
      destruct (user st !! mode) as [maps|]; simpl in Hmaps; [now subst|].
      destruct pre; discriminate. }
    destruct (removeMap_after _ _ _ _ _ _ _ _ Hfirst) as (Hn & _ & _ & Hmodes & _).
    change (removeMap mode cmd st) with st' in Hn, Hmodes. simpl in Hn.
    split; [assumption|]. split; [|split].
    + apply hasName_false. rewrite Hn. intros H. inversion H.
    + intros mode' Hne Hin. now rewrite Hmodes.
    + intros mode'. now apply get_never_nameless.
Qed.

Lemma shared_object_loses_name_in_every_mode_witness :
  get 1%N 2%N "a" st_shared = (Return (Some 0%nat), st_shared)
  /\ 0%nat ∈ default [] (user (snd (remove 1%N "a" st_shared)) !! 2%N)
  /\ get 1%N 2%N "a" (snd (remove 1%N "a" st_shared))
     <> (Return (Some 0%nat), snd (remove 1%N "a" st_shared)).
Proof.
  pose proof (proj2 shared_object_loses_name_in_every_mode 1%N st_shared 1%N "a" 0%nat
                eq_refl eq_refl) as H.
  cbv zeta in H. destruct H as (_ & _ & Hstays & Hget).
  split; [reflexivity|]. split.
  - apply Hstays; [discriminate | vm_compute; left].
  - apply Hget.
Defined.

(** ** The view of the mappings present in all the modes of a list *)

Lemma same_rhs_and_first_name_true (h : list Map.t) (map m : loc) :
  same_rhs_and_first_name h map m = true <-> counterpart h map m.
Proof.
  unfold same_rhs_and_first_name, counterpart. split.
  - destruct (h !! m) as [a|]; [|discriminate].
    destruct (h !! map) as [b|]; [|discriminate].
    rewrite andb_true_iff, !bool_decide_eq_true. intros [Hr Hn]. now exists a, b.
  - intros (a & b & -> & -> & Hr & Hn).
    rewrite andb_true_iff, !bool_decide_eq_true. now split.
Qed.

Lemma keep_map_true (h : list Map.t) (stack : gmap mode_id (list loc))
    (modes : list mode_id) (map : loc) :
  keep_map h stack modes map = true <-> in_every_mode h stack modes map.
Proof.
  unfold keep_map, in_every_mode. rewrite forallb_forall. split.
  - intros H mode Hin%list_elem_of_In. apply H in Hin.
    apply existsb_exists in Hin as (m & Hm & Hc).
    exists m. split; [now apply list_elem_of_In | now apply same_rhs_and_first_name_true].
  - intros H mode Hin%list_elem_of_In. destruct (H mode Hin) as (m & Hm & Hc).
    apply existsb_exists. exists m.
    split; [now apply list_elem_of_In | now apply same_rhs_and_first_name_true].
Qed.

(** When every mode of the list has an array, [every] returns. *)
Lemma every_mode_known (h : list Map.t) (stack : gmap mode_id (list loc))
    (modes : list mode_id) (map : loc) :
  (forall mode, mode ∈ modes -> is_Some (stack !! mode)) ->
  every_mode h stack map modes = Return (keep_map h stack modes map).
Proof.
  induction modes as [|mode modes IH]; intros Hknown; simpl; [reflexivity|].
  destruct (Hknown mode) as [maps Hmaps]; [left|]. rewrite Hmaps. simpl.
  destruct (existsb (same_rhs_and_first_name h map) maps); [|reflexivity].
  apply IH. intros mode' Hin. apply Hknown. now right.
Qed.

Lemma generate_known (h : list Map.t) (stack : gmap mode_id (list loc))
    (modes : list mode_id) (maps : list loc) :
  (forall mode, mode ∈ modes -> is_Some (stack !! mode)) ->
  generate h stack modes maps = Return (List.filter (keep_map h stack modes) maps).
Proof.
  intros Hknown. induction maps as [|map maps IH]; simpl; [reflexivity|].
  rewrite every_mode_known, IH by assumption. reflexivity.
Qed.

(** The state after a user mapping of one key is registered for two modes
    whose user arrays are empty or missing. *)
Lemma addUserMap_two_fresh_modes canonicalKeys (st : state) (A B : mode_id) (key : string)
    description action extra :
  A <> B ->
  default [] (user st !! A) = [] ->
  default [] (user st !! B) = [] ->
  let map := length (heap st) in
  let name := canonicalKeys (expandLeader key st) in
  exists st1 m,
    addUserMap canonicalKeys [A; B] [key] description action extra st = (Return tt, st1)
    /\ heap st1 !! map = Some m
    /\ Map.names m = [name]
    /\ user st1 !! A = Some [map]
    /\ user st1 !! B = Some [map].
Proof.
  intros Hne HA HB map name.
  unfold addUserMap, bind, gets, new_Map, modify. cbn [List.map].
  set (m0 := Map_init _ _ _ _ _ _).
  set (st0 := set_heap (heap st ++ [m0])%list st).
  assert (heap st0 !! map = Some m0) as Hm0 by apply lookup_new_object.
  assert (names_of (heap st0) map = [name]) as Hnames
    by (unfold names_of; now rewrite Hm0).
  assert (modes_of (heap st0) map = [A; B]) as Hmodes
    by (unfold modes_of; now rewrite Hm0).
  fold map. rewrite Hnames, Hmodes. unfold remove_old. cbn [fold_left].
  assert (removeMap A name st0 = st0) as ->.
  { apply removeMap_no_occurrence. intros m Hm. change (user st0) with (user st) in Hm.
    rewrite HA in Hm. inversion Hm. }
  assert (removeMap B name st0 = st0) as ->.
  { apply removeMap_no_occurrence. intros m Hm. change (user st0) with (user st) in Hm.
    rewrite HB in Hm. inversion Hm. }
  unfold addMap. rewrite Hm0.
  change (Map.user m0) with true. change (Map.modes m0) with [A; B].
  cbn [fold_left]. eexists. exists m0. split; [reflexivity|].
  cbn [heap user set_user]. split; [assumption|]. split; [reflexivity|].
  change (user st0) with (user st). split.
  - rewrite addMap_mode_lookup_ne by assumption.
    now rewrite addMap_mode_lookup_eq, HA.
  - rewrite addMap_mode_lookup_eq, addMap_mode_lookup_ne by congruence. now rewrite HB.
Qed.

(** C3: over a list of modes that all have an array in the table, the view
    yields, in their order, the maps of the array of the first mode that
    have, in the array of every other mode of the list, a counterpart with
    the same [rhs] and the same first name, and only those. So when one
    user mapping of one key is registered for two different modes [A] and
    [B] whose user arrays hold nothing, the view of the user table over
    [A, B] yields this one map; and once the mapping is removed from [B],
    it yields nothing. *)
Theorem consistent_view_of_modes :
  (forall (st : state) (stack : gmap mode_id (list loc)) (first : mode_id)
          (modes : list mode_id) (maps : list loc),
      stack !! first = Some maps ->
      (forall mode, mode ∈ modes -> is_Some (stack !! mode)) ->
      exists keep,
        (forall map, keep map = true <-> in_every_mode (heap st) stack modes map)
        /\ mappingsIterator (first :: modes) stack st = Return (List.filter keep maps))
  /\ (forall canonicalKeys (st : state) (A B : mode_id) (key : string)
             description action extra,
        A <> B ->
        default [] (user st !! A) = [] ->
        default [] (user st !! B) = [] ->
        exists st1,
          addUserMap canonicalKeys [A; B] [key] description action extra st = (Return tt, st1)
          /\ getUserIterator [A; B] st1 = (Return [length (heap st)], st1)
          /\ let st2 := snd (remove B (canonicalKeys (expandLeader key st)) st1) in
             getUserIterator [A; B] st2 = (Return [], st2)).
Proof.
  split.
  - intros st stack first modes maps Hfirst Hknown.
    exists (keep_map (heap st) stack modes). split; [intros map; apply keep_map_true|].
    unfold mappingsIterator. rewrite Hfirst. now apply generate_known.
  - intros canonicalKeys st A B key description action extra Hne HA HB.
    destruct (addUserMap_two_fresh_modes canonicalKeys st A B key description action extra
                Hne HA HB) as (st1 & m & Hrun & Hm & Hnames & HuA & HuB).
    exists st1. split; [assumption|]. split.
    + unfold getUserIterator, attempt, mappingsIterator. rewrite HuA. simpl.
      rewrite HuB. simpl. unfold same_rhs_and_first_name. rewrite Hm.
      now rewrite !bool_decide_eq_true_2.
    + intros st2.
      assert (first_occurrence st1 B (canonicalKeys (expandLeader key st))
                [] (length (heap st)) [] [] []) as Hocc.
      { split; [assumption|]. split; [intros x Hx; inversion Hx|].
        split; [unfold names_of; now rewrite Hm | intros Hx; inversion Hx]. }
      destruct (removeMap_after _ _ _ _ _ _ _ _ Hocc) as (_ & _ & HuB' & Hmodes & _).
      change (removeMap B (canonicalKeys (expandLeader key st)) st1) with st2 in HuB', Hmodes.
      simpl in HuB'.
      unfold getUserIterator, attempt, mappingsIterator.
      rewrite (Hmodes A Hne), HuA. simpl. now rewrite HuB'.
Qed.

Lemma consistent_view_of_modes_witness :
  (exists keep,
      (forall map, keep map = true <->
                   in_every_mode (heap st_shared) (user st_shared) [2%N] map)
      /\ mappingsIterator [1%N; 2%N] (user st_shared) st_shared
         = Return (List.filter keep [0%nat]))
  /\ (exists st1,
        addUserMap plain_keys [1%N; 2%N] ["a"] "" f0 None (Mappings [0%N; 1%N; 2%N] None)
        = (Return tt, st1)
        /\ getUserIterator [1%N; 2%N] st1 = (Return [0%nat], st1)
        /\ let st2 := snd (remove 2%N "a" st1) in
           getUserIterator [1%N; 2%N] st2 = (Return [], st2)).
Proof.
  split.
  - apply (proj1 consistent_view_of_modes st_shared (user st_shared) 1%N [2%N] [0%nat]).
    + reflexivity.
    + intros mode Hin. apply list_elem_of_singleton in Hin as ->. now exists [0%nat].
  - apply (proj2 consistent_view_of_modes plain_keys (Mappings [0%N; 1%N; 2%N] None)
             1%N 2%N "a" "" f0 None).
    + discriminate.
    + reflexivity.
    + reflexivity.
Defined.

(** ** Two registrations of one name *)

(** C2 does not hold of the code. In [st_twice] the first mapping was
    given the name [a] twice and the second registration has removed one
    occurrence only: afterwards both the first map (location [0]) and the
    second (location [1]) are user maps of mode [1] that have the name,
    and the lookup returns the first one, not the one registered last. *)
Theorem addUserMap_leaves_older_mapping_of_name :
  user st_twice !! 1%N = Some [0%nat; 1%nat]
  /\ names_of (heap st_twice) 0%nat = ["a"]
  /\ names_of (heap st_twice) 1%nat = ["a"]
  /\ user_match st_twice 1%N "a" 0%nat
  /\ user_match st_twice 1%N "a" 1%nat
  /\ get 1%N 1%N "a" st_twice = (Return (Some 0%nat), st_twice).
Proof.
  split; [reflexivity|]. split; [reflexivity|]. split; [reflexivity|].
  split; [|split].
  - split; vm_compute; [left | left].
  - split; vm_compute; [right; left | left].
  - reflexivity.
Qed.

(** The same for every canonicaliser, every key and every mode whose user
    array holds nothing: a mapping registered with the key given twice
    survives, with the name, a second registration of the key, and stays in
    front of the new map. *)
Lemma addUserMap_key_given_twice canonicalKeys (st : state) (mode : mode_id) (key : string)
    d1 d2 a1 a2 e1 e2 :
  default [] (user st !! mode) = [] ->
  let name := canonicalKeys (expandLeader key st) in
  let first := length (heap st) in
  let st1 := snd (addUserMap canonicalKeys [mode] [key; key] d1 a1 e1 st) in
  let st2 := snd (addUserMap canonicalKeys [mode] [key] d2 a2 e2 st1) in
  user st2 !! mode = Some [first; S first]
  /\ names_of (heap st2) first = [name]
  /\ names_of (heap st2) (S first) = [name]
  /\ getMap mode name (user st2) st2 = Some first.
Proof.
  intros Hempty name first st1 st2.
  (* the first registration *)
  set (m1 := Map_init canonicalKeys [mode]
               [expandLeader key st; expandLeader key st]
               (or_string d1 "User defined mapping") a1
               (Some (ExtraInfo.set_user true (default ExtraInfo.empty e1)))).
  set (sa := set_heap (heap st ++ [m1])%list st).
  assert (heap sa !! first = Some m1) as Hm1 by apply lookup_new_object.
  assert (st1 = set_user (addMap_mode first (user st) mode) sa) as Hst1.
  { unfold st1, addUserMap, bind, gets, new_Map, modify. cbn [List.map snd].
    fold m1. fold sa. fold first.
    assert (names_of (heap sa) first = [name; name]) as -> by (unfold names_of; now rewrite Hm1).
    assert (modes_of (heap sa) first = [mode]) as -> by (unfold modes_of; now rewrite Hm1).
    unfold remove_old. cbn [fold_left].
    assert (removeMap mode name sa = sa) as Hno.
    { apply removeMap_no_occurrence. intros m Hm. change (user sa) with (user st) in Hm.
      rewrite Hempty in Hm. inversion Hm. }
    rewrite !Hno. unfold addMap. rewrite Hm1. reflexivity. }
  assert (user st1 !! mode = Some [first]) as Hu1.
  { rewrite Hst1. cbn [user set_user]. now rewrite addMap_mode_lookup_eq, Hempty. }
  assert (heap st1 = (heap st ++ [m1])%list) as Hh1 by now rewrite Hst1.
  assert (length (heap st1) = S first) as Hlen1
    by (rewrite Hh1, length_app; simpl; unfold first; lia).
  assert (expandLeader key st1 = expandLeader key st) as Hleader by now rewrite Hst1.
  (* the second registration *)
  set (m2 := Map_init canonicalKeys [mode] [expandLeader key st1]
               (or_string d2 "User defined mapping") a2
               (Some (ExtraInfo.set_user true (default ExtraInfo.empty e2)))).
  set (sb := set_heap (heap st1 ++ [m2])%list st1).
  assert (heap sb !! S first = Some m2) as Hm2.
  { rewrite <- Hlen1. apply lookup_new_object. }
  assert (heap sb !! first = Some m1) as Hm1b.
  { unfold sb. cbn [heap set_heap]. rewrite lookup_app_l by (rewrite Hlen1; lia).
    now rewrite Hh1. }
  assert (first_occurrence sb mode name [] first [] [] [name]) as Hocc.
  { split; [exact Hu1|]. split; [intros x Hx; inversion Hx|].
    split; [unfold names_of; now rewrite Hm1b | intros Hx; inversion Hx]. }
  destruct (removeMap_first_occurrence _ _ _ _ _ _ _ _ Hocc) as (m & Hm & Hrm).
  rewrite Hm1b in Hm. injection Hm as <-. cbn zeta in Hrm. simpl app in Hrm.
  set (sc := set_heap (<[first := Map.set_names [name] m1]> (heap sb)) sb) in Hrm.
  assert (heap sc !! S first = Some m2) as Hm2c.
  { unfold sc. cbn [heap set_heap]. now rewrite list_lookup_insert_ne by lia. }
  assert (st2 = set_user (addMap_mode (S first) (user sc) mode) sc) as Hst2.
  { unfold st2, addUserMap, bind, gets, new_Map, modify. cbn [List.map snd].
    fold m2. fold sb. rewrite Hlen1.
    assert (names_of (heap sb) (S first) = [name]) as ->.
    { unfold names_of. rewrite Hm2. simpl. now rewrite Hleader. }
    assert (modes_of (heap sb) (S first) = [mode]) as -> by (unfold modes_of; now rewrite Hm2).
    unfold remove_old. cbn [fold_left]. rewrite Hrm.
    unfold addMap. rewrite Hm2c. reflexivity. }
  assert (names_of (heap st2) first = [name]) as Hn1.
  { rewrite Hst2. unfold names_of, sc. cbn [heap set_heap set_user].
    rewrite list_lookup_insert_eq by (eapply lookup_lt_Some; eassumption). reflexivity. }
  assert (user st2 !! mode = Some [first; S first]) as Hu2.
  { rewrite Hst2. cbn [user set_user]. rewrite addMap_mode_lookup_eq.
    change (user sc) with (user st1). now rewrite Hu1. }
  split; [assumption|]. split; [assumption|]. split.
  - rewrite Hst2. unfold names_of. cbn [heap set_user]. rewrite Hm2c. simpl.
    now rewrite Hleader.
  - apply getMap_loop_Some. exists [], [S first]. rewrite Hu2.
    split; [reflexivity|]. split; [rewrite Hn1; left | intros x Hx; inversion Hx].
Qed.

(** A removal takes one occurrence only: the mapping registered with the
    key [a] given twice is still found after [a] is removed once. *)
Example remove_leaves_second_occurrence :
  let st := snd (addUserMap plain_keys [1%N] ["a"; "a"] "" f0 None
                   (Mappings [0%N; 1%N] None)) in
  get 1%N 1%N "a" (snd (remove 1%N "a" st)) = (Return (Some 0%nat), snd (remove 1%N "a" st)).
Proof. reflexivity. Qed.

(** The view fails when the first mode of the list has no array. *)
Lemma mappingsIterator_unknown_mode (st : state) (stack : gmap mode_id (list loc))
    (first : mode_id) (modes : list mode_id) :
  stack !! first = None -> mappingsIterator (first :: modes) stack st = Throw TypeError.
Proof. intros H. unfold mappingsIterator. now rewrite H. Qed.

(** ** Registrations whose names are all different *)

Lemma shrinks_refl (st : state) : shrinks st st.
Proof. repeat split; reflexivity. Qed.

Lemma shrinks_trans (st1 st2 st3 : state) :
  shrinks st1 st2 -> shrinks st2 st3 -> shrinks st1 st3.
Proof.
  intros (Hl1 & Hn1 & Hu1 & Hf1) (Hl2 & Hn2 & Hu2 & Hf2).
  split; [congruence|]. split; [|split].
  - intros l. etransitivity; [apply Hn2 | apply Hn1].
  - intros mode. etransitivity; [apply Hu2 | apply Hu1].
  - intros l Hl. rewrite Hf2, Hf1; [reflexivity | assumption |].
    intros mode Hin. apply (Hl mode). eapply elem_of_sublist; [eassumption | apply Hu1].
Qed.

Lemma removeMap_shrinks (mode : mode_id) (cmd : string) (st : state) :
  shrinks st (removeMap mode cmd st).
Proof.
  destruct (occurrence_cases st mode cmd) as [Hno|(pre & map & post & ns1 & ns2 & Hfirst)].
  - rewrite removeMap_no_occurrence by assumption. apply shrinks_refl.
  - destruct (removeMap_after _ _ _ _ _ _ _ _ Hfirst)
      as (Hn & Hother & Hu' & Hmodes & _ & Hlen).
    destruct Hfirst as (Hu & _ & Hnames & _).
    split; [assumption|]. split; [|split].
    + intros l. destruct (decide (l = map)) as [->|Hne].
      * rewrite Hn, Hnames. apply sublist_app; [reflexivity|].
        apply sublist_cons_r. now left.
      * now rewrite (names_of_ext _ _ l (Hother l Hne)).
    + intros mode'. destruct (decide (mode' = mode)) as [->|Hne].
      * rewrite Hu', Hu. simpl. destruct (ns1 ++ ns2)%list; [|reflexivity].
        apply sublist_app; [reflexivity|]. apply sublist_cons_r. now left.
      * now rewrite Hmodes.
    + intros l Hl. apply Hother. intros ->. apply (Hl mode). rewrite Hu. simpl.
      apply elem_of_app. right. left.
Qed.

Lemma user_inv_shrinks (st st' : state) : user_inv st -> shrinks st st' -> user_inv st'.
Proof.
  intros (Hnu & Hhu & Hal) (Hlen & Hn & Hu & _). split; [|split].
  - intros mode l Hl. eapply sublist_NoDup; [|apply Hn].
    apply (Hnu mode). eapply elem_of_sublist; [eassumption | apply Hu].
  - intros mode l1 l2 n H1 H2 Hn1 Hn2. apply (Hhu mode l1 l2 n).
    + exact (elem_of_sublist _ _ _ H1 (Hu mode)).
    + exact (elem_of_sublist _ _ _ H2 (Hu mode)).
    + exact (elem_of_sublist _ _ _ Hn1 (Hn l1)).
    + exact (elem_of_sublist _ _ _ Hn2 (Hn l2)).
  - intros mode l Hl. rewrite Hlen. apply (Hal mode).
    eapply elem_of_sublist; [eassumption | apply Hu].
Qed.

Lemma no_occurrence_shrinks (st st' : state) (mode : mode_id) (cmd : string) :
  no_occurrence st mode cmd -> shrinks st st' -> no_occurrence st' mode cmd.
Proof.
  intros Hno (_ & Hn & Hu & _) m Hm Hin. apply (Hno m).
  - eapply elem_of_sublist; [eassumption | apply Hu].
  - eapply elem_of_sublist; [eassumption | apply Hn].
Qed.

(** Under the invariant one removal is enough: no user map of the mode
    has the name afterwards. *)
Lemma removeMap_clears (mode : mode_id) (cmd : string) (st : state) :
  user_inv st -> no_occurrence (removeMap mode cmd st) mode cmd.
Proof.
  intros (Hnu & Hhu & _).
  destruct (occurrence_cases st mode cmd) as [Hno|(pre & map & post & ns1 & ns2 & Hfirst)].
  - now rewrite removeMap_no_occurrence.
  - destruct (removeMap_after _ _ _ _ _ _ _ _ Hfirst) as (Hn & Hother & Hu' & _).
    destruct Hfirst as (Hu & Hpre & Hnames & Hns1).
    assert (map ∈ default [] (user st !! mode)) as Hmap.
    { rewrite Hu. simpl. apply elem_of_app. right. left. }
    intros m Hm. destruct (decide (m = map)) as [->|Hne].
    + rewrite Hn. apply not_elem_of_app. split; [assumption|].
      specialize (Hnu mode map Hmap). rewrite Hnames in Hnu.
      apply NoDup_app in Hnu as (_ & _ & Hnu). now apply NoDup_cons in Hnu as [Hnu _].
    + rewrite (names_of_ext _ _ m (Hother m Hne)). intros Hin. apply Hne.
      apply (Hhu mode m map cmd); try assumption.
      * rewrite Hu' in Hm. rewrite Hu. simpl in Hm |- *.
        destruct (ns1 ++ ns2)%list; [|assumption].
        apply elem_of_app in Hm as [Hm|Hm]; apply elem_of_app; [now left|].
        right. now right.
      * rewrite Hnames. apply elem_of_app. right. left.
Qed.

Lemma remove_old_calls (names : list string) (modes : list mode_id) (st : state) :
  remove_old names modes st =
  fold_left (fun st call => removeMap (fst call) (snd call) st) (remove_calls names modes) st.
Proof.
  unfold remove_old, remove_calls. revert st.
  induction names as [|name names IH]; intros st; simpl; [reflexivity|].
  rewrite fold_left_app, <- IH. f_equal.
  generalize st. clear. induction modes as [|mode modes IH]; intros st; simpl;
    [reflexivity | apply IH].
Qed.

Lemma elem_of_remove_calls (names : list string) (modes : list mode_id)
    (mode : mode_id) (name : string) :
  In (mode, name) (remove_calls names modes) <-> name ∈ names /\ mode ∈ modes.
Proof.
  unfold remove_calls. rewrite in_flat_map, !list_elem_of_In. split.
  - intros (n & Hn & Hin). apply in_map_iff in Hin as (m & [= <- <-] & Hm). now split.
  - intros [Hn Hm]. exists name. split; [assumption|].
    apply in_map_iff. now exists mode.
Qed.

Lemma fold_removeMap_clears (calls : list (mode_id * string)) (st : state) :
  user_inv st ->
  let st' := fold_left (fun st call => removeMap (fst call) (snd call) st) calls st in
  shrinks st st'
  /\ forall mode name, In (mode, name) calls -> no_occurrence st' mode name.
Proof.
  revert st. induction calls as [|[mode0 name0] calls IH]; intros st Hinv; simpl.
  - split; [apply shrinks_refl | intros ? ? []].
  - pose proof (removeMap_shrinks mode0 name0 st) as Hs1.
    pose proof (user_inv_shrinks _ _ Hinv Hs1) as Hinv1.
    destruct (IH _ Hinv1) as [Hs2 Hclear].
    split; [eapply shrinks_trans; eassumption|].
    intros mode name [[= <- <-]|Hin]; [|now apply Hclear].
    eapply no_occurrence_shrinks; [|exact Hs2]. now apply removeMap_clears.
Qed.

Lemma elem_of_fold_addMap_mode (map : loc) (modes : list mode_id)
    (t : gmap mode_id (list loc)) (mode : mode_id) (x : loc) :
  x ∈ default [] (fold_left (addMap_mode map) modes t !! mode) <->
  x ∈ default [] (t !! mode) \/ (x = map /\ mode ∈ modes).
Proof.
  revert t. induction modes as [|mode0 modes IH]; intros t; simpl.
  - split; [now left | intros [H|[_ H]]; [assumption | inversion H]].
  - rewrite IH. destruct (decide (mode = mode0)) as [->|Hne].
    + rewrite addMap_mode_lookup_eq. simpl. rewrite elem_of_app, list_elem_of_singleton.
      split.
      * intros [[H|H]|[H1 H2]]; [now left | right | right].
        -- split; [assumption | left].
        -- split; [assumption | now right].
      * intros [H|[H1 H2]]; [left; now left | left; now right].
    + rewrite addMap_mode_lookup_ne by assumption. split.
      * intros [H|[H1 H2]]; [now left | right; split; [assumption | now right]].
      * intros [H|[H1 H2]]; [now left | right; split; [assumption|]].
        apply elem_of_cons in H2 as [H2|H2]; [contradiction | assumption].
Qed.

Lemma Mappings_user_empty (modes : list mode_id) (leader : option string) (mode : mode_id) :
  default [] (user (Mappings modes leader) !! mode) = [].
Proof.
  unfold Mappings. cbn [user].
  assert (forall t : gmap mode_id (list loc),
             default [] (t !! mode) = [] ->
             default [] (fold_left (fun t mode => <[mode := []]> t) modes t !! mode) = [])
    as H.
  { induction modes as [|mode0 modes IH]; intros t Ht; simpl; [assumption|].
    apply IH. destruct (decide (mode0 = mode)) as [->|Hne].
    - now rewrite lookup_insert_eq.
    - now rewrite lookup_insert_ne. }
  apply H. now rewrite lookup_empty.
Qed.

(** The state [Mappings()] starts from has the invariant. *)
Lemma Mappings_user_inv (modes : list mode_id) (leader : option string) :
  user_inv (Mappings modes leader).
Proof.
  split; [|split]; intros mode; intros; exfalso;
    match goal with
    | H : _ ∈ default [] (user (Mappings _ _) !! _) |- _ =>
        rewrite Mappings_user_empty in H; inversion H
    end.
Qed.

(** A removal keeps the invariant. *)
Lemma remove_user_inv (mode : mode_id) (cmd : string) (st : state) :
  user_inv st -> user_inv (snd (remove mode cmd st)).
Proof. intros H. eapply user_inv_shrinks; [exact H | apply removeMap_shrinks]. Qed.

(** When the names of the new map are all different, [addUserMap] keeps
    the invariant of the user table, so that at most one user map of a mode
    has a given name; and for each mode of the new map other than [0] and
    each of its names, the lookup returns the new map. *)
Theorem addUserMap_last_registration_wins
    canonicalKeys (NORMAL : mode_id) (st : state) modes keys description action extra :
  user_inv st ->
  NoDup (new_names canonicalKeys keys st) ->
  exists st',
    addUserMap canonicalKeys modes keys description action extra st = (Return tt, st')
    /\ user_inv st'
    /\ names_of (heap st') (length (heap st)) = new_names canonicalKeys keys st
    /\ forall mode name,
        mode ∈ modes -> name ∈ new_names canonicalKeys keys st -> mode <> 0%N ->
        get NORMAL mode name st' = (Return (Some (length (heap st))), st').
Proof.
  intros Hinv Hnodup. pose proof Hinv as (Hnu & Hhu & Hal).
  unfold addUserMap, bind, gets, new_Map, modify.
  set (map := length (heap st)).
  set (m0 := Map_init _ _ _ _ _ _).
  set (sa := set_heap (heap st ++ [m0])%list st).
  assert (heap sa !! map = Some m0) as Hm0 by apply lookup_new_object.
  assert (Map.names m0 = new_names canonicalKeys keys st) as Hnames0 by reflexivity.
  assert (names_of (heap sa) map = new_names canonicalKeys keys st) as Hna
    by (unfold names_of; now rewrite Hm0).
  assert (modes_of (heap sa) map = modes) as Hmo by (unfold modes_of; now rewrite Hm0).
  rewrite Hna, Hmo.
  (* the state with the new object allocated has the invariant *)
  assert (forall l, (l < map)%nat -> names_of (heap sa) l = names_of (heap st) l) as Hold.
  { intros l Hl. unfold names_of, sa. cbn [heap set_heap]. now rewrite lookup_app_l. }
  assert (user_inv sa) as Hinva.
  { split; [|split].
    - intros mode l Hl. rewrite Hold by exact (Hal mode l Hl). exact (Hnu mode l Hl).
    - intros mode l1 l2 n H1 H2. rewrite !Hold by (eapply Hal; eassumption).
      exact (Hhu mode l1 l2 n H1 H2).
    - intros mode l Hl. unfold sa. cbn [heap set_heap]. rewrite length_app. simpl.
      specialize (Hal mode l Hl). lia. }
  assert (forall mode, map ∉ default [] (user sa !! mode)) as Hfresh.
  { intros mode Hin. specialize (Hal mode map Hin). unfold map in Hal. lia. }
  (* the removals *)
  set (sb := remove_old (new_names canonicalKeys keys st) modes sa).
  destruct (fold_removeMap_clears (remove_calls (new_names canonicalKeys keys st) modes) sa Hinva)
    as [Hshr Hclear].
  rewrite <- remove_old_calls in Hshr, Hclear. fold sb in Hshr, Hclear.
  pose proof (user_inv_shrinks _ _ Hinva Hshr) as (Hnub & Hhub & Halb).
  destruct Hshr as (Hlenb & _ & Husub & Hframe).
  assert (heap sb !! map = Some m0) as Hm0b by (rewrite Hframe; assumption).
  assert (names_of (heap sb) map = new_names canonicalKeys keys st) as Hnb
    by (unfold names_of; now rewrite Hm0b).
  assert (forall mode, map ∉ default [] (user sb !! mode)) as Hfreshb.
  { intros mode Hin. apply (Hfresh mode). exact (elem_of_sublist _ _ _ Hin (Husub mode)). }
  (* the new map is pushed *)
  unfold addMap. rewrite Hm0b. change (Map.user m0) with true. change (Map.modes m0) with modes.
  set (sc := set_user (fold_left (addMap_mode map) modes (user sb)) sb).
  assert (forall mode x,
             x ∈ default [] (user sc !! mode) <->
             x ∈ default [] (user sb !! mode) \/ (x = map /\ mode ∈ modes)) as Helem
    by (intros mode x; apply elem_of_fold_addMap_mode).
  assert (holders_unique sc) as Hhuc.
  { intros mode l1 l2 n H1 H2 Hn1 Hn2. change (heap sc) with (heap sb) in Hn1, Hn2.
    apply Helem in H1 as [H1|[-> Hm1]]; apply Helem in H2 as [H2|[-> Hm2]].
    - exact (Hhub mode l1 l2 n H1 H2 Hn1 Hn2).
    - exfalso. rewrite Hnb in Hn2.
      exact (Hclear mode n (proj2 (elem_of_remove_calls _ _ _ _) (conj Hn2 Hm2)) l1 H1 Hn1).
    - exfalso. rewrite Hnb in Hn1.
      exact (Hclear mode n (proj2 (elem_of_remove_calls _ _ _ _) (conj Hn1 Hm1)) l2 H2 Hn2).
    - reflexivity. }
  exists sc. split; [reflexivity|]. split; [split; [|split; [exact Hhuc|]]|split].
  - intros mode l Hl. change (heap sc) with (heap sb).
    apply Helem in Hl as [Hl|[-> _]]; [exact (Hnub mode l Hl) | now rewrite Hnb].
  - intros mode l Hl. change (heap sc) with (heap sb).
    apply Helem in Hl as [Hl|[-> _]]; [exact (Halb mode l Hl)|].
    eapply lookup_lt_Some. exact Hm0b.
  - exact Hnb.
  - intros mode name Hmode Hname Hnz.
    assert (map ∈ default [] (user sc !! mode)) as Hin by (apply Helem; right; now split).
    assert (name ∈ names_of (heap sc) map) as Hhas by (change (heap sc) with (heap sb); now rewrite Hnb).
    destruct (getMap_is_Some mode name (user sc) sc map Hin Hhas) as [found Hfound].
    pose proof (getMap_Some_elem _ _ _ _ _ Hfound) as [Hf1 Hf2].
    assert (found = map) as -> by exact (Hhuc mode found map name Hf1 Hin Hf2 Hhas).
    now apply get_nonzero_mode.
Qed.

(** After the running example of two registrations of [a], when each names
    [a] once, the map registered last is the one found. *)
Lemma addUserMap_last_registration_wins_witness :
  let st1 := snd (addUserMap plain_keys [1%N] ["a"] "First" f0 None
                    (Mappings [0%N; 1%N] None)) in
  exists st',
    addUserMap plain_keys [1%N] ["a"] "Second" f0 None st1 = (Return tt, st')
    /\ get 1%N 1%N "a" st' = (Return (Some 1%nat), st').
Proof.
  intros st1.
  assert (user_inv st1) as Hinv.
  { destruct (addUserMap_last_registration_wins plain_keys 1%N (Mappings [0%N; 1%N] None)
                [1%N] ["a"] "First" f0 None) as (st' & Hrun & Hinv & _).
    - apply Mappings_user_inv.
    - vm_compute. apply NoDup_cons. split; [intros H; inversion H | apply NoDup_nil_2].
    - unfold st1. rewrite Hrun. exact Hinv. }
  destruct (addUserMap_last_registration_wins plain_keys 1%N st1
              [1%N] ["a"] "Second" f0 None Hinv) as (st' & Hrun & _ & _ & Hget).
  - vm_compute. apply NoDup_cons. split; [intros H; inversion H | apply NoDup_nil_2].
  - exists st'. split; [exact Hrun|].
    apply (Hget 1%N "a"); [left | vm_compute; left | discriminate].
Defined.

(** Under the invariant, a user map of the mode that has the name is the
    map the lookup in the user table finds, and the first occurrence of a
    name is its only occurrence. *)
Lemma getMap_of_holder (st : state) (mode : mode_id) (name : string) (map : loc) :
  user_inv st ->
  map ∈ default [] (user st !! mode) ->
  name ∈ names_of (heap st) map ->
  getMap mode name (user st) st = Some map.
Proof.
  intros (_ & Hhu & _) Hin Hname.
  destruct (getMap_is_Some mode name (user st) st map Hin Hname) as [found Hfound].
  pose proof (getMap_Some_elem _ _ _ _ _ Hfound) as [Hf1 Hf2].
  now rewrite (Hhu mode found map name Hf1 Hin Hf2 Hname) in Hfound.
Qed.

Lemma first_occurrence_is_only (st : state) (mode : mode_id) (cmd : string)
    (pre : list loc) (map : loc) (post : list loc) (ns1 ns2 : list string) :
  user_inv st ->
  first_occurrence st mode cmd pre map post ns1 ns2 ->
  (cmd ∉ ns2) /\ (forall m, m ∈ post -> m <> map -> cmd ∉ names_of (heap st) m).
Proof.
  intros (Hnu & Hhu & _) (Hu & _ & Hnames & _).
  assert (map ∈ default [] (user st !! mode)) as Hmap.
  { rewrite Hu. simpl. apply elem_of_app. right. left. }
  split.
  - specialize (Hnu mode map Hmap). rewrite Hnames in Hnu.
    apply NoDup_app in Hnu as (_ & _ & Hnu). now apply NoDup_cons in Hnu as [Hnu _].
  - intros m Hm Hne Hin. apply Hne. apply (Hhu mode m map cmd); try assumption.
    + rewrite Hu. simpl. apply elem_of_app. right. now right.
    + rewrite Hnames. apply elem_of_app. right. left.
Qed.

(** [removeMap] and [addUserMap] leave [mapleader] alone, so the names a
    key list stands for do not change along a sequence of registrations. *)
Lemma removeMap_mapleader (mode : mode_id) (cmd : string) (st : state) :
  mapleader (removeMap mode cmd st) = mapleader st.
Proof.
  unfold removeMap.
  destruct (removeMap_maps _ _ _ _) as [[[i map] j]|]; [|reflexivity].
  unfold splice_name. destruct (heap st !! map); [|now destruct (_ =? _)%nat].
  now destruct (_ =? _)%nat.
Qed.

Lemma remove_old_mapleader (names : list string) (modes : list mode_id) (st : state) :
  mapleader (remove_old names modes st) = mapleader st.
Proof.
  rewrite remove_old_calls. generalize (remove_calls names modes). intros calls.
  revert st. induction calls as [|call calls IH]; intros st; simpl; [reflexivity|].
  now rewrite IH, removeMap_mapleader.
Qed.

Lemma addUserMap_mapleader canonicalKeys modes keys description action extra st :
  mapleader (snd (addUserMap canonicalKeys modes keys description action extra st))
  = mapleader st.
Proof.
  unfold addUserMap, bind, gets, new_Map, modify. cbn [snd].
  unfold addMap. destruct (heap _ !! _) as [m|].
  - destruct (Map.user m); cbn [mapleader set_user set_main]; now rewrite remove_old_mapleader.
  - now rewrite remove_old_mapleader.
Qed.

Lemma new_names_mapleader canonicalKeys (keys : list string) (st st' : state) :
  mapleader st' = mapleader st ->
  new_names canonicalKeys keys st' = new_names canonicalKeys keys st.
Proof.
  intros H. unfold new_names, expandLeader, getMapLeader_value, variableReference_mapleader.
  now rewrite H.
Qed.

(** Any sequence of user registrations none of which gives a name twice
    keeps the invariant: at most one user map of a mode has a given name. *)
Lemma addUserMaps_user_inv canonicalKeys (rs : list registration) (st : state) :
  user_inv st ->
  (forall r, r ∈ rs -> NoDup (new_names canonicalKeys (r_keys r) st)) ->
  user_inv (addUserMaps canonicalKeys rs st).
Proof.
  revert st. induction rs as [|r rs IH]; intros st Hinv Hnodup; [assumption|].
  change (user_inv (addUserMaps canonicalKeys rs
            (snd (addUserMap canonicalKeys (r_modes r) (r_keys r) (r_description r)
                    (r_action r) (r_extra r) st)))).
  pose proof (addUserMap_mapleader canonicalKeys (r_modes r) (r_keys r)
                (r_description r) (r_action r) (r_extra r) st) as Hleader.
  destruct (addUserMap_last_registration_wins canonicalKeys 0%N st (r_modes r) (r_keys r)
              (r_description r) (r_action r) (r_extra r) Hinv)
    as (st' & Hrun & Hinv' & _); [apply Hnodup; left|].
  rewrite Hrun in Hleader |- *. cbn [snd] in Hleader |- *. apply IH; [assumption|].
  intros r' Hr'. rewrite (new_names_mapleader _ _ _ _ Hleader). apply Hnodup. now right.
Qed.

(** ** Clearing a mode, adding a mode, and asking for a user mapping *)

Lemma existsb_hasName_false (h : list Map.t) (cmd : string) (maps : list loc) :
  existsb (fun map => hasName h map cmd) maps = false <->
  (forall m, m ∈ maps -> cmd ∉ names_of h m).
Proof.
  induction maps as [|m0 maps IH]; simpl.
  - split; [intros _ m Hm; inversion Hm | reflexivity].
  - rewrite orb_false_iff, IH, hasName_false. split.
    + intros [H0 H] m Hm. apply elem_of_cons in Hm as [->|Hm]; auto.
    + intros H. split; [apply H; left | intros m Hm; apply H; now right].
Qed.

(** [hasMap] on a mode that has a user array. *)
Lemma hasMap_known (st : state) (mode : mode_id) (cmd : string) (maps : list loc) :
  user st !! mode = Some maps ->
  exists b,
    hasMap mode cmd st = (Return b, st)
    /\ (b = false <-> no_occurrence st mode cmd).
Proof.
  intros Hu. unfold hasMap, attempt. rewrite Hu. eexists. split; [reflexivity|].
  unfold no_occurrence. rewrite Hu. simpl. apply existsb_hasName_false.
Qed.

(** [removeAll(mode)] never fails and empties the user array of the mode,
    also when the mode had none; the objects, the user arrays of the other
    modes and the default table stay as they are. Afterwards [hasMap] is
    false for every name, and for a mode other than [0] the lookup returns
    what [getDefault] returned before. *)
Theorem removeAll_leaves_defaults (NORMAL : mode_id) (st : state) (mode : mode_id) :
  exists st',
    removeAll mode st = (Return tt, st')
    /\ user st' !! mode = Some []
    /\ (forall mode', mode' <> mode -> user st' !! mode' = user st !! mode')
    /\ main st' = main st
    /\ heap st' = heap st
    /\ (forall cmd, hasMap mode cmd st' = (Return false, st'))
    /\ (forall cmd, mode <> 0%N ->
          fst (get NORMAL mode cmd st') = fst (getDefault NORMAL mode cmd st)).
Proof.
  unfold removeAll, modify. eexists. split; [reflexivity|].
  cbn [user main heap set_user].
  split; [apply lookup_insert_eq|].
  split; [intros mode' Hne; now apply lookup_insert_ne|].
  split; [reflexivity|]. split; [reflexivity|]. split.
  - intros cmd. unfold hasMap, attempt. cbn [user set_user].
    now rewrite lookup_insert_eq.
  - intros cmd Hmode. unfold get, getDefault, gets, or_NORMAL.
    destruct (N.eqb_spec mode 0) as [?|_]; [contradiction|].
    cbn [fst]. unfold getMap at 1. cbn [user set_user].
    rewrite lookup_insert_eq. reflexivity.
Qed.

Lemma removeAll_leaves_defaults_witness :
  fst (get 1%N 1%N "a" (snd (removeAll 1%N st_mode1))) = Return (Some 0%nat).
Proof.
  destruct (removeAll_leaves_defaults 1%N st_mode1 1%N)
    as (st' & Hrun & _ & _ & _ & _ & _ & Hget).
  rewrite Hrun. cbn [snd]. rewrite (Hget "a"); [reflexivity | discriminate].
Defined.

(** [addMode(mode)] never fails. For a mode that has an array in neither
    table it makes an empty array in both, and leaves the other modes and
    the objects alone, so that [hasMap] and [getCandidates] then return
    (false, and no map) instead of failing. For a mode that has an array in
    one of the tables it changes nothing: adding a mode twice is adding it
    once, and the mappings of a mode are never lost by adding it again. *)
Theorem addMode_initialises_once (st : state) (mode : mode_id) :
  (user st !! mode = None -> main st !! mode = None ->
   exists st',
     addMode mode st = (Return tt, st')
     /\ user st' !! mode = Some [] /\ main st' !! mode = Some []
     /\ (forall mode', mode' <> mode ->
           user st' !! mode' = user st !! mode' /\ main st' !! mode' = main st !! mode')
     /\ heap st' = heap st
     /\ (forall cmd, hasMap mode cmd st' = (Return false, st'))
     /\ (forall prefix, getCandidates mode prefix st' = (Return [], st'))
     /\ addMode mode st' = (Return tt, st'))
  /\ (is_Some (user st !! mode) \/ is_Some (main st !! mode) ->
      addMode mode st = (Return tt, st)).
Proof.
  split.
  - intros Hu Hm. unfold addMode at 1, modify. rewrite Hu, Hm.
    eexists. split; [reflexivity|]. cbn [user main heap set_user set_main].
    split; [apply lookup_insert_eq|]. split; [apply lookup_insert_eq|].
    split; [intros mode' Hne; split; now apply lookup_insert_ne|].
    split; [reflexivity|]. split; [|split].
    + intros cmd. unfold hasMap, attempt. cbn [user set_user].
      now rewrite lookup_insert_eq.
    + intros prefix. unfold getCandidates, attempt. cbn [user main set_user set_main].
      now rewrite !lookup_insert_eq.
    + unfold addMode, modify. cbn [user main set_user set_main].
      now rewrite !lookup_insert_eq.
  - intros H. unfold addMode, modify.
    destruct (user st !! mode) as [u|]; [reflexivity|].
    destruct (main st !! mode) as [d|]; [reflexivity|].
    destruct H as [[x H]|[x H]]; discriminate.
Qed.

Lemma addMode_initialises_once_witness :
  (exists st',
      addMode 7%N (Mappings [0%N; 1%N] None) = (Return tt, st')
      /\ getCandidates 7%N "d" st' = (Return [], st'))
  /\ addMode 1%N st_mode1 = (Return tt, st_mode1).
Proof.
  pose proof (addMode_initialises_once (Mappings [0%N; 1%N] None) 7%N) as [H1 _].
  pose proof (addMode_initialises_once st_mode1 1%N) as [_ H2].
  split.
  - destruct (H1 eq_refl eq_refl) as (st' & Hrun & _ & _ & _ & _ & _ & Hc & _).
    exists st'. split; [exact Hrun | apply Hc].
  - apply H2. left. now exists [1%nat].
Defined.

(** A mode that [addMode] never saw gets, from [addUserMap], a user array
    only. Adding the mode afterwards changes nothing, since the mode has a
    user array, and [getCandidates] for the mode fails with a [TypeError]
    for want of a default array, while [hasMap] answers. *)
Theorem addUserMap_on_unknown_mode_breaks_getCandidates
    canonicalKeys (st : state) (mode : mode_id) keys description action extra :
  main st !! mode = None ->
  exists st',
    addUserMap canonicalKeys [mode] keys description action extra st = (Return tt, st')
    /\ is_Some (user st' !! mode)
    /\ main st' !! mode = None
    /\ addMode mode st' = (Return tt, st')
    /\ (forall prefix, getCandidates mode prefix st' = (Throw TypeError, st'))
    /\ (forall cmd, exists b, hasMap mode cmd st' = (Return b, st')).
Proof.
  intros Hm.
  destruct (addUserMap_stores_object canonicalKeys [mode] keys description action extra st)
    as (st' & Hrun & _ & Hin & Hmain).
  exists st'. split; [assumption|].
  assert (is_Some (user st' !! mode)) as [maps Hu].
  { specialize (Hin mode). destruct (user st' !! mode) as [maps|]; [now exists maps|].
    exfalso. assert (length (heap st) ∈ @nil nat) as H by (apply Hin; left). inversion H. }
  split; [now exists maps|]. split; [now rewrite Hmain|]. split; [|split].
  - unfold addMode, modify. now rewrite Hu.
  - intros prefix. unfold getCandidates, attempt. now rewrite Hu, Hmain, Hm.
  - intros cmd. destruct (hasMap_known st' mode cmd maps Hu) as (b & Hb & _). now exists b.
Qed.

Lemma addUserMap_on_unknown_mode_breaks_getCandidates_witness :
  exists st',
    addUserMap plain_keys [7%N] ["a"] "" f0 None (Mappings [0%N; 1%N] None) = (Return tt, st')
    /\ getCandidates 7%N "" st' = (Throw TypeError, st').
Proof.
  destruct (addUserMap_on_unknown_mode_breaks_getCandidates plain_keys
              (Mappings [0%N; 1%N] None) 7%N ["a"] "" f0 None eq_refl)
    as (st' & Hrun & _ & _ & _ & Hc & _).
  exists st'. split; [exact Hrun | apply Hc].
Defined.

(** On a mode that has a user array, [hasMap(mode, cmd)] answers true
    exactly when [remove(mode, cmd)] changes the state, that is when some
    user map of the mode has the name; and when it answers false the
    removal is no change at all. *)
Theorem hasMap_iff_remove_changes (st : state) (mode : mode_id) (cmd : string)
    (maps : list loc) :
  user st !! mode = Some maps ->
  exists b,
    hasMap mode cmd st = (Return b, st)
    /\ (b = true <-> snd (remove mode cmd st) <> st)
    /\ (b = true <-> exists m, m ∈ maps /\ cmd ∈ names_of (heap st) m).
Proof.
  intros Hu. destruct (hasMap_known st mode cmd maps Hu) as (b & Hb & Hspec).
  exists b. split; [assumption|].
  unfold remove, modify. cbn [snd].
  destruct (occurrence_cases st mode cmd) as [Hno|(pre & map & post & ns1 & ns2 & Hfirst)].
  - assert (b = false) as -> by now apply Hspec.
    split; split; try discriminate.
    + intros H. exfalso. apply H. now apply removeMap_no_occurrence.
    + intros (m & Hm & Hin). exfalso. apply (Hno m); [|assumption].
      now rewrite Hu.
  - destruct (removeMap_after _ _ _ _ _ _ _ _ Hfirst) as (Hn & _).
    destruct Hfirst as (Hu' & _ & Hnames & _).
    assert (map ∈ maps) as Hmap.
    { rewrite Hu in Hu'. injection Hu' as ->. apply elem_of_app. right. left. }
    assert (cmd ∈ names_of (heap st) map) as Hcmd
      by (rewrite Hnames; apply elem_of_app; right; left).
    assert (b = true) as ->.
    { destruct b; [reflexivity|]. exfalso.
      apply (proj1 Hspec eq_refl map); [now rewrite Hu | assumption]. }
    split; split; try reflexivity.
    + intros _ Heq. rewrite Heq in Hn. rewrite Hnames in Hn.
      apply (f_equal length) in Hn. rewrite !length_app in Hn. simpl in Hn. lia.
    + intros _. now exists map.
Qed.

Lemma hasMap_iff_remove_changes_witness :
  hasMap 1%N "a" st_mode1 = (Return true, st_mode1)
  /\ snd (remove 1%N "a" st_mode1) <> st_mode1.
Proof.
  destruct (hasMap_iff_remove_changes st_mode1 1%N "a" [1%nat] eq_refl)
    as (b & Hb & Hchg & _).
  assert (b = true) as -> by (injection Hb as <-; reflexivity).
  split; [exact Hb | now apply Hchg].
Defined.

(** ** The default layer under the operations on the user layer *)

Lemma getMap_loop_ext (h h' : list Map.t) (cmd : string) (maps : list loc) :
  (forall m, m ∈ maps -> names_of h' m = names_of h m) ->
  getMap_loop h' cmd maps = getMap_loop h cmd maps.
Proof.
  induction maps as [|m0 maps IH]; intros H; simpl; [reflexivity|].
  unfold hasName. rewrite (H m0) by left.
  destruct (0 <=? indexOf (names_of h m0) cmd)%Z; [reflexivity|].
  apply IH. intros m Hm. apply H. now right.
Qed.

Lemma getMap_loop_app (h : list Map.t) (cmd : string) (maps1 maps2 : list loc) :
  getMap_loop h cmd (maps1 ++ maps2)%list =
  match getMap_loop h cmd maps1 with
  | Some found => Some found
  | None => getMap_loop h cmd maps2
  end.
Proof.
  induction maps1 as [|m0 maps1 IH]; simpl; [reflexivity|].
  destruct (hasName h m0 cmd); [reflexivity | apply IH].
Qed.

Lemma defaults_kept_refl (st : state) : defaults_kept st st.
Proof. split; reflexivity. Qed.

Lemma defaults_kept_trans (st1 st2 st3 : state) :
  defaults_kept st1 st2 -> defaults_kept st2 st3 -> defaults_kept st1 st3.
Proof.
  intros [Hm1 Hh1] [Hm2 Hh2]. split; [congruence|].
  intros mode l Hl. rewrite (Hh2 mode l) by (now rewrite Hm1). now apply (Hh1 mode).
Qed.

Lemma defaults_kept_getDefault (NORMAL : mode_id) (st st' : state) (mode : mode_id)
    (cmd : string) :
  defaults_kept st st' ->
  fst (getDefault NORMAL mode cmd st') = fst (getDefault NORMAL mode cmd st).
Proof.
  intros [Hm Hh]. unfold getDefault, gets, getMap. cbn [fst]. rewrite Hm. f_equal.
  apply getMap_loop_ext. intros m Hin. apply names_of_ext. now apply (Hh (or_NORMAL NORMAL mode)).
Qed.

Lemma same_but_names_user (h h' : list Map.t) (l : loc) :
  same_but_names h h' -> Map.user <$> (h' !! l) = Map.user <$> (h !! l).
Proof.
  intros [_ H]. specialize (H l).
  destruct (h' !! l) as [a|], (h !! l) as [b|]; try discriminate; [|reflexivity].
  assert (Map.set_names [] a = Map.set_names [] b) as Heq by (simpl in H; congruence).
  simpl. f_equal. exact (f_equal Map.user Heq).
Qed.

Lemma removeMap_layers (mode : mode_id) (cmd : string) (st : state) :
  layers st ->
  layers (removeMap mode cmd st) /\ defaults_kept st (removeMap mode cmd st).
Proof.
  intros [Hmain Huser].
  pose proof (removeMap_same_but_names mode cmd st) as Hsame.
  pose proof (removeMap_shrinks mode cmd st) as (_ & _ & Hsub & _).
  assert (defaults_kept st (removeMap mode cmd st)) as Hkept.
  { split; [apply removeMap_main|]. intros mode' l Hl.
    destruct (occurrence_cases st mode cmd) as [Hno|(pre & map & post & ns1 & ns2 & Hfirst)].
    - now rewrite removeMap_no_occurrence.
    - destruct (removeMap_after _ _ _ _ _ _ _ _ Hfirst) as (_ & Hother & _).
      apply Hother. intros ->. destruct Hfirst as (Hu & _).
      assert (Map.user <$> heap st !! map = Some true) as Ht.
      { apply (Huser mode). rewrite Hu. simpl. apply elem_of_app. right. left. }
      rewrite (Hmain mode' map Hl) in Ht. discriminate. }
  split; [|assumption]. split.
  - intros mode' l Hl. rewrite removeMap_main in Hl.
    rewrite (proj2 Hkept mode' l Hl). now apply (Hmain mode').
  - intros mode' l Hl. rewrite (same_but_names_user _ _ l Hsame).
    apply (Huser mode'). exact (elem_of_sublist _ _ _ Hl (Hsub mode')).
Qed.

Lemma remove_old_layers (names : list string) (modes : list mode_id) (st : state) :
  layers st ->
  layers (remove_old names modes st) /\ defaults_kept st (remove_old names modes st).
Proof.
  rewrite remove_old_calls. generalize (remove_calls names modes). intros calls.
  revert st. induction calls as [|[mode cmd] calls IH]; intros st Hl; simpl.
  - split; [assumption | apply defaults_kept_refl].
  - destruct (removeMap_layers mode cmd st Hl) as [Hl1 Hk1].
    destruct (IH _ Hl1) as [Hl2 Hk2]. split; [assumption|].
    eapply defaults_kept_trans; eassumption.
Qed.

(** The state [addUserMap] leaves: the new object is allocated, the old
    mappings of its names are removed, and its location is pushed into the
    user arrays of its modes. *)
Lemma addUserMap_state canonicalKeys modes keys description action extra (st : state) :
  let m0 := Map_init canonicalKeys modes (List.map (fun key => expandLeader key st) keys)
              (or_string description "User defined mapping") action
              (Some (ExtraInfo.set_user true (default ExtraInfo.empty extra))) in
  let sa := set_heap (heap st ++ [m0])%list st in
  let sb := remove_old (Map.names m0) modes sa in
  addUserMap canonicalKeys modes keys description action extra st
  = (Return tt, set_user (fold_left (addMap_mode (length (heap st))) modes (user sb)) sb)
  /\ Map.set_names [] <$> (heap sb !! length (heap st)) = Some (Map.set_names [] m0).
Proof.
  intros m0 sa sb.
  assert (heap sa !! length (heap st) = Some m0) as Hm0 by apply lookup_new_object.
  destruct (remove_old_same_but_names (Map.names m0) modes sa) as [_ Hsame].
  fold sb in Hsame. specialize (Hsame (length (heap st))). rewrite Hm0 in Hsame.
  split; [|exact Hsame].
  unfold addUserMap, bind, gets, new_Map, modify. fold m0. fold sa.
  assert (names_of (heap sa) (length (heap st)) = Map.names m0) as ->
    by (unfold names_of; now rewrite Hm0).
  assert (modes_of (heap sa) (length (heap st)) = modes) as ->
    by (unfold modes_of; now rewrite Hm0).
  fold sb. unfold addMap.
  destruct (heap sb !! length (heap st)) as [m|]; [|discriminate].
  assert (Map.set_names [] m = Map.set_names [] m0) as Heq by (simpl in Hsame; congruence).
  assert (Map.user m = true) as -> by exact (f_equal Map.user Heq).
  assert (Map.modes m = modes) as -> by exact (f_equal Map.modes Heq).
  reflexivity.
Qed.

Lemma layers_allocate (st : state) (m0 : Map.t) :
  layers st ->
  layers (set_heap (heap st ++ [m0])%list st)
  /\ defaults_kept st (set_heap (heap st ++ [m0])%list st).
Proof.
  intros [Hmain Huser].
  assert (forall l b, Map.user <$> heap st !! l = Some b ->
                      (heap st ++ [m0])%list !! l = heap st !! l) as Hold.
  { intros l b H. apply lookup_app_l. apply lookup_lt_is_Some.
    destruct (heap st !! l); [eauto | discriminate]. }
  split; [split|split].
  - intros mode l Hl. cbn [heap main set_heap] in *.
    rewrite (Hold l false) by now apply (Hmain mode). now apply (Hmain mode).
  - intros mode l Hl. cbn [heap user set_heap] in *.
    rewrite (Hold l true) by now apply (Huser mode). now apply (Huser mode).
  - reflexivity.
  - intros mode l Hl. cbn [heap set_heap]. apply (Hold l false). now apply (Hmain mode).
Qed.

Lemma addUserMap_layers canonicalKeys modes keys description action extra (st : state) :
  layers st ->
  let st' := snd (addUserMap canonicalKeys modes keys description action extra st) in
  layers st' /\ defaults_kept st st'.
Proof.
  intros Hl st'.
  destruct (addUserMap_state canonicalKeys modes keys description action extra st)
    as [Hrun Hobj].
  unfold st'. rewrite Hrun. cbn [snd]. clear st' Hrun.
  set (m0 := Map_init _ _ _ _ _ _) in *.
  set (sa := set_heap (heap st ++ [m0])%list st) in *.
  set (sb := remove_old (Map.names m0) modes sa) in *.
  destruct (layers_allocate st m0 Hl) as [Hla Hka]. fold sa in Hla, Hka.
  destruct (remove_old_layers (Map.names m0) modes sa Hla) as [[Hmb Hub] Hkb].
  fold sb in Hmb, Hub, Hkb.
  split.
  - split.
    + intros mode l Hin. exact (Hmb mode l Hin).
    + intros mode l Hin. cbn [heap user set_user] in *.
      apply elem_of_fold_addMap_mode in Hin as [Hin|[-> _]]; [exact (Hub mode l Hin)|].
      destruct (heap sb !! length (heap st)) as [m|]; [|discriminate].
      assert (Map.set_names [] m = Map.set_names [] m0) as Heq
        by (simpl in Hobj; congruence).
      simpl. f_equal. exact (f_equal Map.user Heq).
  - destruct (defaults_kept_trans _ _ _ Hka Hkb) as [Hm Hh]. split; assumption.
Qed.

Lemma removeAll_layers (mode : mode_id) (st : state) :
  layers st ->
  layers (snd (removeAll mode st)) /\ defaults_kept st (snd (removeAll mode st)).
Proof.
  intros [Hmain Huser]. unfold removeAll, modify. cbn [snd].
  split; [split|split; [reflexivity | intros; reflexivity]].
  - exact Hmain.
  - intros mode' l Hl. cbn [heap user set_user] in *.
    destruct (decide (mode' = mode)) as [->|Hne].
    + rewrite lookup_insert_eq in Hl. inversion Hl.
    + rewrite lookup_insert_ne in Hl by congruence. now apply (Huser mode').
Qed.

Lemma Mappings_layers (modes : list mode_id) (leader : option string) :
  layers (Mappings modes leader).
Proof.
  assert (forall mode, default [] (main (Mappings modes leader) !! mode) = []) as Hmain
    by (intros mode; exact (Mappings_user_empty modes leader mode)).
  split; intros mode l Hl; exfalso.
  - rewrite Hmain in Hl. inversion Hl.
  - rewrite Mappings_user_empty in Hl. inversion Hl.
Qed.

(** No sequence of [addUserMap], [remove] and [removeAll] changes what
    [getDefault] returns, for any mode and any name, nor the default table
    itself; and the two layers stay apart. *)
Theorem user_operations_leave_defaults
    canonicalKeys (NORMAL : mode_id) (ops : list user_op) (st : state) :
  layers st ->
  let st' := run_user_ops canonicalKeys ops st in
  layers st'
  /\ main st' = main st
  /\ forall mode cmd,
      fst (getDefault NORMAL mode cmd st') = fst (getDefault NORMAL mode cmd st).
Proof.
  intros Hl st'.
  assert (layers st' /\ defaults_kept st st') as [Hl' Hk].
  { unfold st', run_user_ops. clear st'. revert st Hl.
    induction ops as [|op ops IH]; intros st Hl; simpl.
    - split; [assumption | apply defaults_kept_refl].
    - assert (layers (run_user_op canonicalKeys st op)
              /\ defaults_kept st (run_user_op canonicalKeys st op)) as [Hl1 Hk1].
      { destruct op as [r|mode cmd|mode]; simpl.
        - now apply addUserMap_layers.
        - now apply removeMap_layers.
        - now apply removeAll_layers. }
      destruct (IH _ Hl1) as [Hl2 Hk2]. split; [assumption|].
      eapply defaults_kept_trans; eassumption. }
  split; [assumption|]. split; [apply Hk|].
  intros mode cmd. now apply defaults_kept_getDefault.
Qed.

(** [mappings.add] keeps the two layers apart, whatever its options. *)
Lemma add_layers canonicalKeys modes keys description action extra (st : state) :
  layers st ->
  layers (snd (add canonicalKeys modes keys description action extra st)).
Proof.
  intros Hl.
  set (m0 := Map_init canonicalKeys modes keys description action extra).
  destruct (layers_allocate st m0 Hl) as [[Hma Hua] _].
  set (sa := set_heap (heap st ++ [m0])%list st) in *.
  assert (heap sa !! length (heap st) = Some m0) as Hm0 by apply lookup_new_object.
  assert (add canonicalKeys modes keys description action extra st
          = (Return tt,
             if Map.user m0
             then set_user (fold_left (addMap_mode (length (heap st))) modes (user sa)) sa
             else set_main (fold_left (addMap_mode (length (heap st))) modes (main sa)) sa))
    as ->.
  { unfold add, bind, new_Map, modify, addMap. fold m0. fold sa. now rewrite Hm0. }
  cbn [snd]. destruct (Map.user m0) eqn:Hu0; split.
  - exact Hma.
  - intros mode l Hin. cbn [heap user set_user] in *.
    apply elem_of_fold_addMap_mode in Hin as [Hin|[-> _]]; [exact (Hua mode l Hin)|].
    rewrite Hm0. change (Some (Map.user m0) = Some true). now rewrite Hu0.
  - intros mode l Hin. cbn [heap main set_main] in *.
    apply elem_of_fold_addMap_mode in Hin as [Hin|[-> _]]; [exact (Hma mode l Hin)|].
    rewrite Hm0. change (Some (Map.user m0) = Some false). now rewrite Hu0.
  - exact Hua.
Qed.

Lemma user_operations_leave_defaults_witness :
  let st := snd (add plain_keys [1%N] ["a"] "" f0 None (Mappings [0%N; 1%N] None)) in
  let ops := [OpAddUserMap (Registration [1%N] ["a"] "" f0 None);
              OpRemove 1%N "a"; OpRemoveAll 1%N] in
  fst (getDefault 1%N 1%N "a" (run_user_ops plain_keys ops st))
  = fst (getDefault 1%N 1%N "a" st).
Proof.
  intros st ops.
  assert (layers st) as Hl by (apply add_layers, Mappings_layers).
  exact (proj2 (proj2 (user_operations_leave_defaults plain_keys 1%N ops st Hl)) 1%N "a").
Defined.

(** ** Registration of default mappings, in general *)

Lemma fold_addMap_mode_array (map : loc) (modes : list mode_id)
    (t : gmap mode_id (list loc)) (mode : mode_id) :
  exists k,
    default [] (fold_left (addMap_mode map) modes t !! mode)
    = (default [] (t !! mode) ++ List.repeat map k)%list
    /\ (mode ∈ modes -> (0 < k)%nat)
    /\ (mode ∉ modes -> k = 0%nat).
Proof.
  revert t. induction modes as [|mode0 modes IH]; intros t; simpl.
  - exists 0%nat. rewrite app_nil_r. split; [reflexivity|].
    split; [intros H; inversion H | reflexivity].
  - destruct (IH (addMap_mode map t mode0)) as (k & Hk & Hin & Hout).
    destruct (decide (mode = mode0)) as [->|Hne].
    + exists (S k). rewrite Hk, addMap_mode_lookup_eq. simpl.
      rewrite <- app_assoc. split; [reflexivity|]. split; [lia|].
      intros H. exfalso. apply H. left.
    + exists k. rewrite Hk, addMap_mode_lookup_ne by assumption.
      split; [reflexivity|]. split.
      * intros H. apply elem_of_cons in H as [?|H]; [contradiction | auto].
      * intros H. apply Hout. intros H'. apply H. now right.
Qed.

Lemma getMap_loop_repeat (h : list Map.t) (cmd : string) (map : loc) (k : nat) :
  (0 < k)%nat -> cmd ∈ names_of h map ->
  getMap_loop h cmd (List.repeat map k) = Some map.
Proof.
  intros Hk Hin. destruct k; [lia|]. simpl.
  now rewrite (proj2 (hasName_true h map cmd) Hin).
Qed.

(** [mappings.add] with no [user] option never fails and appends to the
    default arrays of its modes: it leaves the user table alone and keeps
    the two layers apart; a name that [getDefault] found before is still
    resolved to the same, older map (adding a default mapping does not
    override an existing one); a name of the new map that was not found in
    one of its modes is resolved to the new map; and the lookups in the
    other modes are as before. *)
Theorem add_appends_to_defaults
    canonicalKeys (NORMAL : mode_id) (st : state) modes keys description action extra :
  layers st ->
  ExtraInfo.user (default ExtraInfo.empty extra) = false ->
  exists st',
    add canonicalKeys modes keys description action extra st = (Return tt, st')
    /\ layers st'
    /\ user st' = user st
    /\ (forall mode cmd found,
          fst (getDefault NORMAL mode cmd st) = Return (Some found) ->
          fst (getDefault NORMAL mode cmd st') = Return (Some found))
    /\ (forall mode cmd,
          or_NORMAL NORMAL mode ∈ modes ->
          cmd ∈ List.map canonicalKeys keys ->
          fst (getDefault NORMAL mode cmd st) = Return None ->
          fst (getDefault NORMAL mode cmd st') = Return (Some (length (heap st))))
    /\ (forall mode cmd,
          or_NORMAL NORMAL mode ∉ modes ->
          fst (getDefault NORMAL mode cmd st') = fst (getDefault NORMAL mode cmd st)).
Proof.
  intros Hl Hflag. pose proof Hl as [Hmain Huser].
  set (map := length (heap st)).
  set (m0 := Map_init canonicalKeys modes keys description action extra).
  set (sa := set_heap (heap st ++ [m0])%list st).
  assert (heap sa !! map = Some m0) as Hm0 by apply lookup_new_object.
  assert (Map.user m0 = false) as Hu0 by (simpl; now rewrite Hflag).
  set (st' := set_main (fold_left (addMap_mode map) modes (main sa)) sa).
  assert (add canonicalKeys modes keys description action extra st = (Return tt, st')) as Hrun.
  { unfold add, bind, new_Map, modify, addMap. fold m0. fold sa. fold map.
    rewrite Hm0, Hu0. reflexivity. }
  destruct (layers_allocate st m0 Hl) as [[Hma Hua] [_ Hka]]. fold sa in Hma, Hua, Hka.
  assert (forall mode cmd,
             fst (getDefault NORMAL mode cmd st') =
             Return (match getMap_loop (heap st) cmd
                             (default [] (main st !! or_NORMAL NORMAL mode)) with
                     | Some found => Some found
                     | None =>
                         if bool_decide (or_NORMAL NORMAL mode ∈ modes)
                            && bool_decide (cmd ∈ List.map canonicalKeys keys)
                         then Some map else None
                     end)) as Hget.
  { intros mode cmd. unfold getDefault, gets, getMap. cbn [fst heap main st' set_main].
    destruct (fold_addMap_mode_array map modes (main sa) (or_NORMAL NORMAL mode))
      as (k & -> & Hin & Hout).
    change (main sa) with (main st). change (heap sa) with (heap st ++ [m0])%list.
    rewrite getMap_loop_app. f_equal.
    rewrite (getMap_loop_ext (heap st) (heap st ++ [m0])%list)
      by (intros m Hm; apply names_of_ext; exact (Hka _ m Hm)).
    destruct (getMap_loop (heap st) cmd _); [reflexivity|].
    assert (names_of (heap st ++ [m0])%list map = List.map canonicalKeys keys) as Hn.
    { unfold names_of. change (heap st ++ [m0])%list with (heap sa). now rewrite Hm0. }
    destruct (decide (or_NORMAL NORMAL mode ∈ modes)) as [Hmode|Hmode].
    - rewrite (bool_decide_eq_true_2 _ Hmode). simpl.
      destruct (decide (cmd ∈ List.map canonicalKeys keys)) as [Hcmd|Hcmd].
      + rewrite (bool_decide_eq_true_2 _ Hcmd).
        apply getMap_loop_repeat; [auto | now rewrite Hn].
      + rewrite (bool_decide_eq_false_2 _ Hcmd).
        apply getMap_loop_None. intros m Hm%list_elem_of_In.
        apply repeat_spec in Hm as ->. now rewrite Hn.
    - rewrite (bool_decide_eq_false_2 _ Hmode). simpl. now rewrite (Hout Hmode). }
  assert (forall mode cmd,
             fst (getDefault NORMAL mode cmd st) =
             Return (getMap_loop (heap st) cmd
                       (default [] (main st !! or_NORMAL NORMAL mode)))) as Hget0
    by reflexivity.
  exists st'. split; [assumption|]. split; [|split; [reflexivity|split; [|split]]].
  - split.
    + intros mode l Hin. cbn [heap main st' set_main] in *.
      apply elem_of_fold_addMap_mode in Hin as [Hin|[-> _]]; [exact (Hma mode l Hin)|].
      fold map. rewrite Hm0. change (Some (Map.user m0) = Some false). now rewrite Hu0.
    + intros mode l Hin. exact (Hua mode l Hin).
  - intros mode cmd found. rewrite Hget, Hget0. intros [= ->]. reflexivity.
  - intros mode cmd Hmode Hcmd. rewrite Hget, Hget0. intros [= ->].
    now rewrite (bool_decide_eq_true_2 _ Hmode), (bool_decide_eq_true_2 _ Hcmd).
  - intros mode cmd Hmode. rewrite Hget, Hget0.
    rewrite (bool_decide_eq_false_2 _ Hmode). simpl.
    now destruct (getMap_loop _ _ _).
Qed.

(** A second default mapping of [d] does not take the name from the
    first; its other name [x] is resolved to it. *)
Lemma add_appends_to_defaults_witness :
  exists st',
    add plain_keys [1%N] ["d"; "x"] "" f0 None st_d = (Return tt, st')
    /\ fst (getDefault 1%N 1%N "d" st') = Return (Some 0%nat)
    /\ fst (getDefault 1%N 1%N "x" st') = Return (Some 1%nat).
Proof.
  assert (layers st_d) as Hl by (apply add_layers, Mappings_layers).
  destruct (add_appends_to_defaults plain_keys 1%N st_d [1%N] ["d"; "x"] "" f0 None
              Hl eq_refl) as (st' & Hrun & _ & _ & Hold & Hnew & _).
  exists st'. split; [exact Hrun|]. split.
  - now apply Hold.
  - apply Hnew; [left | right; left | reflexivity].
Defined.

(** ** The view over one mode, and over more modes *)

Lemma filter_sublist_of (f : loc -> bool) (l : list loc) : List.filter f l `sublist_of` l.
Proof.
  induction l as [|x l IH]; simpl; [constructor|].
  destruct (f x); [now apply sublist_skip | now apply sublist_cons].
Qed.

Lemma filter_andb_sublist (f g : loc -> bool) (l : list loc) :
  List.filter (fun x => f x && g x) l `sublist_of` List.filter f l.
Proof.
  induction l as [|x l IH]; simpl; [constructor|].
  destruct (f x), (g x); simpl;
    [now apply sublist_skip | now apply sublist_cons | assumption | assumption].
Qed.

Lemma filter_ext_bool (f g : loc -> bool) (l : list loc) :
  (forall x, f x = g x) -> List.filter f l = List.filter g l.
Proof.
  intros H. induction l as [|x l IH]; simpl; [reflexivity|]. now rewrite H, IH.
Qed.

Lemma filter_true (l : list loc) : List.filter (fun _ => true) l = l.
Proof. induction l as [|x l IH]; simpl; [reflexivity | now rewrite IH]. Qed.

(** Over a single mode the view yields the whole array of the mode, in its
    order, whatever the maps are; so [mappings.__iterator__] yields all the
    default maps of [modes.NORMAL], and fails when that mode has no default
    array. Over a longer list of modes that all have an array, the view
    yields a sublist of what it yields over a shorter one: listing more
    modes never adds a map and never reorders the maps. *)
Theorem view_of_one_mode_and_of_more (NORMAL : mode_id) (st : state) :
  (forall stack mode maps,
      stack !! mode = Some maps ->
      mappingsIterator [mode] stack st = Return maps)
  /\ (forall maps, main st !! NORMAL = Some maps ->
        __iterator__ NORMAL st = (Return maps, st))
  /\ (main st !! NORMAL = None -> __iterator__ NORMAL st = (Throw TypeError, st))
  /\ (forall stack first modes more maps,
        stack !! first = Some maps ->
        (forall mode, mode ∈ (modes ++ more)%list -> is_Some (stack !! mode)) ->
        exists ys zs,
          mappingsIterator (first :: modes) stack st = Return ys
          /\ mappingsIterator (first :: modes ++ more)%list stack st = Return zs
          /\ zs `sublist_of` ys
          /\ ys `sublist_of` maps).
Proof.
  assert (forall stack mode maps,
             stack !! mode = Some maps ->
             mappingsIterator [mode] stack st = Return maps) as Hone.
  { intros stack mode maps Hm. unfold mappingsIterator. rewrite Hm.
    rewrite generate_known by (intros m H; inversion H).
    now rewrite (filter_ext_bool _ (fun _ => true)), filter_true. }
  split; [exact Hone|]. split; [|split].
  - intros maps Hm. unfold __iterator__, attempt. now rewrite (Hone _ _ _ Hm).
  - intros Hm. unfold __iterator__, attempt, mappingsIterator. now rewrite Hm.
  - intros stack first modes more maps Hfirst Hknown.
    unfold mappingsIterator. rewrite Hfirst.
    rewrite !generate_known;
      [|assumption | intros mode Hin; apply Hknown, elem_of_app; now left].
    eexists. eexists. split; [reflexivity|]. split; [reflexivity|].
    split; [|apply filter_sublist_of].
    rewrite (filter_ext_bool (keep_map (heap st) stack (modes ++ more))
               (fun x => keep_map (heap st) stack modes x
                         && keep_map (heap st) stack more x)).
    + apply filter_andb_sublist.
    + intros x. unfold keep_map. apply forallb_app.
Qed.

Lemma view_of_one_mode_and_of_more_witness :
  mappingsIterator [2%N] (user st_shared) st_shared = Return [0%nat]
  /\ exists ys zs,
      mappingsIterator [1%N] (user st_shared) st_shared = Return ys
      /\ mappingsIterator [1%N; 2%N] (user st_shared) st_shared = Return zs
      /\ zs `sublist_of` ys
      /\ ys `sublist_of` [0%nat].
Proof.
  pose proof (view_of_one_mode_and_of_more 1%N st_shared) as (H1 & _ & _ & H4).
  split; [now apply H1|].
  apply (H4 (user st_shared) 1%N [] [2%N] [0%nat]); [reflexivity|].
  intros mode Hin. apply list_elem_of_singleton in Hin as ->. now exists [0%nat].
Defined.

(** ** The commands [mapclear] and [unmap] *)

(** [mapclear] never fails; it leaves an empty user array for each of its
    modes, also for a mode that had none, and leaves the user arrays of the
    other modes, the default table and the objects as they are. *)
Theorem mapclear_empties_its_modes (modes : list mode_id) (st : state) :
  exists st',
    mapclear_command modes st = (Return tt, st')
    /\ (forall mode, mode ∈ modes -> user st' !! mode = Some [])
    /\ (forall mode, mode ∉ modes -> user st' !! mode = user st !! mode)
    /\ main st' = main st
    /\ heap st' = heap st.
Proof.
  unfold mapclear_command. revert st.
  induction modes as [|mode0 modes IH]; intros st.
  - exists st. repeat split. intros mode H. inversion H.
  - destruct (IH (set_user (<[mode0 := []]> (user st)) st))
      as (st' & Hrun & Hin & Hout & Hmain & Hheap).
    exists st'. split; [|split; [|split; [|split]]].
    + cbn [forEach]. unfold bind, removeAll at 1, modify. exact Hrun.
    + intros mode Hm. destruct (decide (mode ∈ modes)) as [Hd|Hd]; [now apply Hin|].
      apply elem_of_cons in Hm as [->|Hm]; [|contradiction].
      rewrite (Hout mode0 Hd). cbn [user set_user]. apply lookup_insert_eq.
    + intros mode Hm. apply not_elem_of_cons in Hm as [Hne Hm].
      rewrite (Hout mode Hm). cbn [user set_user]. now apply lookup_insert_ne.
    + exact Hmain.
    + exact Hheap.
Qed.

Lemma removeMap_user_known (mode : mode_id) (cmd : string) (st : state) (mode' : mode_id) :
  is_Some (user st !! mode') -> is_Some (user (removeMap mode cmd st) !! mode').
Proof.
  intros Hs.
  destruct (occurrence_cases st mode cmd) as [Hno|(pre & map & post & ns1 & ns2 & Hfirst)].
  - now rewrite removeMap_no_occurrence.
  - destruct (removeMap_after _ _ _ _ _ _ _ _ Hfirst) as (_ & _ & Hu & Hmodes & _).
    destruct (decide (mode' = mode)) as [->|Hne]; [rewrite Hu; eauto | now rewrite Hmodes].
Qed.

(** The loop of [unmap] takes no user array away. *)
Lemma unmap_loop_user_known (modes : list mode_id) (args : string) (found found' : bool)
    (st st' : state) (mode' : mode_id) :
  unmap_loop modes args found st = (Return found', st') ->
  is_Some (user st !! mode') -> is_Some (user st' !! mode').
Proof.
  revert st found. induction modes as [|mode modes IH]; intros st found Hrun Hs.
  - injection Hrun as _ <-. exact Hs.
  - cbn [unmap_loop] in Hrun. unfold bind at 1, hasMap at 1, attempt in Hrun.
    destruct (user st !! mode) as [ms|]; [|discriminate].
    destruct (existsb _ ms).
    + unfold bind at 1, remove at 1, modify in Hrun.
      apply (IH _ _ Hrun). now apply removeMap_user_known.
    + now apply (IH _ _ Hrun).
Qed.

(** The loop of [unmap]. *)
Lemma unmap_loop_spec (modes : list mode_id) (args : string) (found : bool) (st : state) :
  user_known st modes ->
  exists st' found',
    unmap_loop modes args found st = (Return found', st')
    /\ shrinks st st'
    /\ main st' = main st
    /\ (found' = true <-> found = true \/ some_occurrence st modes args)
    /\ (~ some_occurrence st modes args -> st' = st)
    /\ (user_inv st -> forall mode, mode ∈ modes -> no_occurrence st' mode args).
Proof.
  revert st found. induction modes as [|mode modes IH]; intros st found Hknown.
  - exists st, found. split; [reflexivity|]. split; [apply shrinks_refl|].
    split; [reflexivity|]. split; [|split].
    + split; [now left | intros [H|(m & Hm & _)]; [assumption | inversion Hm]].
    + reflexivity.
    + intros _ m Hm. inversion Hm.
  - destruct (Hknown mode) as [maps Hmaps]; [left|].
    destruct (hasMap_known st mode args maps Hmaps) as (b & Hb & Hspec).
    cbn [unmap_loop]. unfold bind at 1. rewrite Hb.
    assert (forall s, user_known s (mode :: modes) -> user_known s modes) as Htail
      by (intros s H m Hm; apply H; now right).
    destruct b.
    + (* the name is found in this mode, and removed *)
      assert (~ no_occurrence st mode args) as Hocc
        by (intros H; apply Hspec in H; discriminate).
      unfold bind at 1, remove at 1, modify.
      set (st1 := removeMap mode args st).
      pose proof (removeMap_shrinks mode args st) as Hs1. fold st1 in Hs1.
      assert (user_known st1 (mode :: modes)) as Hknown1
        by (intros m Hm; apply removeMap_user_known, Hknown, Hm).
      destruct (IH st1 true (Htail _ Hknown1))
        as (st' & found' & Hrun & Hs2 & Hmain & Hfound & _ & Hclear).
      exists st', found'. split; [exact Hrun|].
      split; [eapply shrinks_trans; eassumption|].
      split; [rewrite Hmain; apply removeMap_main|].
      split; [|split].
      * split; [intros _; right; exists mode; split; [left | assumption]|].
        intros _. apply Hfound. now left.
      * intros H. exfalso. apply H. exists mode. split; [left | assumption].
      * intros Hinv m Hm.
        pose proof (user_inv_shrinks _ _ Hinv Hs1) as Hinv1.
        apply elem_of_cons in Hm as [->|Hm]; [|now apply Hclear].
        eapply no_occurrence_shrinks; [|exact Hs2]. now apply removeMap_clears.
    + (* the name is not found in this mode *)
      assert (no_occurrence st mode args) as Hno by now apply Hspec.
      destruct (IH st found (Htail _ Hknown))
        as (st' & found' & Hrun & Hs & Hmain & Hfound & Hsame & Hclear).
      assert (some_occurrence st (mode :: modes) args <-> some_occurrence st modes args)
        as Hsome.
      { split; intros (m & Hm & Ho); exists m; (split; [|assumption]).
        - apply elem_of_cons in Hm as [->|Hm]; [contradiction | assumption].
        - now right. }
      exists st', found'. split; [exact Hrun|]. split; [assumption|].
      split; [assumption|]. split; [|split].
      * rewrite Hfound, Hsome. reflexivity.
      * intros H. apply Hsame. intros H'. apply H. now apply Hsome.
      * intros Hinv m Hm. apply elem_of_cons in Hm as [->|Hm]; [|now apply Hclear].
        eapply no_occurrence_shrinks; eassumption.
Qed.

(** [unmap], on modes that all have a user array: when no user map of any
    of the modes has the name, it changes nothing and reports
    [E31: No such mapping]; when some user map of one of the modes has it,
    it reports nothing, only removes (names and maps of the user layer; the
    default table is untouched), and, the names of the user maps being all
    different, no user map of any of the modes has the name afterwards.
    When the first mode has no user array it fails with a [TypeError]. *)
Theorem unmap_removes_or_reports
    (echoerr : string -> M unit) (modes : list mode_id) (args : string) (st : state) :
  (user_known st modes -> ~ some_occurrence st modes args ->
   unmap_command echoerr modes args st = echoerr "E31: No such mapping" st)
  /\ (user_known st modes -> some_occurrence st modes args ->
      exists st',
        unmap_command echoerr modes args st = (Return tt, st')
        /\ main st' = main st
        /\ shrinks st st'
        /\ (user_inv st ->
            forall mode, mode ∈ modes -> hasMap mode args st' = (Return false, st')))
  /\ (forall mode rest, modes = mode :: rest -> user st !! mode = None ->
      unmap_command echoerr modes args st = (Throw TypeError, st)).
Proof.
  split; [|split].
  - intros Hknown Hnone.
    destruct (unmap_loop_spec modes args false st Hknown)
      as (st' & found' & Hrun & _ & _ & Hfound & Hsame & _).
    unfold unmap_command, bind. rewrite Hrun, (Hsame Hnone).
    destruct found'; [|reflexivity].
    destruct (proj1 Hfound eq_refl) as [H|H]; [discriminate | contradiction].
  - intros Hknown Hsome.
    destruct (unmap_loop_spec modes args false st Hknown)
      as (st' & found' & Hrun & Hs & Hmain & Hfound & _ & Hclear).
    assert (found' = true) as -> by (apply Hfound; now right).
    exists st'. split; [unfold unmap_command, bind; now rewrite Hrun|].
    split; [assumption|]. split; [assumption|].
    intros Hinv mode Hmode.
    destruct (unmap_loop_user_known modes args false true st st' mode Hrun (Hknown mode Hmode))
      as [maps Hmaps].
    destruct (hasMap_known st' mode args maps Hmaps) as (b & Hb & Hspec).
    now rewrite Hb, (proj2 Hspec (Hclear Hinv mode Hmode)).
  - intros mode rest -> Hu. unfold unmap_command, bind. cbn [unmap_loop].
    unfold bind, hasMap, attempt. now rewrite Hu.
Qed.

Lemma unmap_removes_or_reports_witness :
  (exists st',
      unmap_command (fun _ => ret tt) [1%N; 2%N] "a" st_shared = (Return tt, st')
      /\ main st' = main st_shared)
  /\ unmap_command (fun _ => throw TypeError) [1%N; 2%N] "b" st_shared
     = (Throw TypeError, st_shared).
Proof.
  assert (user_known st_shared [1%N; 2%N]) as Hknown.
  { intros mode Hm. apply elem_of_cons in Hm as [->|Hm]; [now exists [0%nat]|].
    apply list_elem_of_singleton in Hm as ->. now exists [0%nat]. }
  split.
  - destruct (proj1 (proj2 (unmap_removes_or_reports (fun _ => ret tt) [1%N; 2%N] "a"
                               st_shared)) Hknown) as (st' & Hrun & Hmain & _).
    + exists 1%N. split; [left|]. intros Hno. apply (Hno 0%nat); vm_compute; left.
    + exists st'. now split.
  - rewrite (proj1 (unmap_removes_or_reports (fun _ => throw TypeError) [1%N; 2%N] "b"
                      st_shared) Hknown); [reflexivity|].
    intros (mode & Hm & Hocc). apply Hocc. intros m Hin.
    apply elem_of_cons in Hm as [->|Hm];
      [|apply list_elem_of_singleton in Hm as ->];
      vm_compute in Hin; apply list_elem_of_singleton in Hin as ->;
      vm_compute; intros H; apply list_elem_of_singleton in H; discriminate.
Defined.

(** [unmap] over two modes that share one object leaves the object behind
    in the second mode. When the map that has the name in the first mode
    has only this name and is also in the user array of the other mode,
    where no other map has the name, the removal in the first mode empties
    its names; the second mode then no longer has the name, so nothing is
    removed there: the user array of the second mode is what it was, with
    the object, now without a name, still in it and still yielded by the
    view of that mode. *)
Theorem unmap_leaves_nameless_object
    (echoerr : string -> M unit) (st : state) (A B : mode_id) (args : string)
    (map : loc) (mapsB : list loc) :
  A <> B ->
  names_of (heap st) map = [args] ->
  getMap A args (user st) st = Some map ->
  user st !! B = Some mapsB ->
  map ∈ mapsB ->
  (forall m, m ∈ mapsB -> m <> map -> args ∉ names_of (heap st) m) ->
  exists st',
    unmap_command echoerr [A; B] args st = (Return tt, st')
    /\ names_of (heap st') map = []
    /\ user st' !! B = Some mapsB
    /\ getUserIterator [B] st' = (Return mapsB, st')
    /\ hasMap B args st' = (Return false, st').
Proof.
  intros Hne Hnames Hget HB Hin Hothers.
  apply getMap_loop_Some in Hget as (pre & post & Hmaps & _ & Hpre).
  assert (user st !! A = Some (pre ++ map :: post)%list) as HA.
  { destruct (user st !! A) as [maps|]; simpl in Hmaps; [now subst|].
    destruct pre; discriminate. }
  assert (first_occurrence st A args pre map post [] []) as Hfirst.
  { split; [assumption|]. split; [assumption|]. split; [assumption|].
    intros H. inversion H. }
  destruct (removeMap_after _ _ _ _ _ _ _ _ Hfirst) as (Hn & Hother & _ & Hmodes & _).
  set (st1 := removeMap A args st) in *. simpl in Hn.
  assert (user st1 !! B = Some mapsB) as HB1 by (rewrite Hmodes; [assumption | congruence]).
  assert (no_occurrence st1 B args) as Hno.
  { intros m Hm. rewrite HB1 in Hm. simpl in Hm.
    destruct (decide (m = map)) as [->|Hd].
    - rewrite Hn. intros H. inversion H.
    - rewrite (names_of_ext _ _ m (Hother m Hd)). now apply Hothers. }
  destruct (hasMap_known st A args _ HA) as (bA & HbA & HspecA).
  assert (bA = true) as ->.
  { destruct bA; [reflexivity|]. exfalso.
    apply (proj1 HspecA eq_refl map).
    - rewrite HA. simpl. apply elem_of_app. right. left.
    - rewrite Hnames. left. }
  destruct (hasMap_known st1 B args _ HB1) as (bB & HbB & HspecB).
  assert (bB = false) as -> by now apply HspecB.
  exists st1. split; [|split; [|split; [|split]]]; try assumption.
  - unfold unmap_command. cbn [unmap_loop]. unfold bind at 1. unfold bind at 1.
    rewrite HbA. unfold bind at 1, remove at 1, modify. fold st1.
    unfold bind at 1. rewrite HbB. reflexivity.
  - unfold getUserIterator, attempt, mappingsIterator. rewrite HB1.
    rewrite generate_known by (intros m H; inversion H).
    now rewrite (filter_ext_bool _ (fun _ => true)), filter_true.
Qed.

Lemma unmap_leaves_nameless_object_witness :
  exists st',
    unmap_command (fun _ => ret tt) [1%N; 2%N] "a" st_shared = (Return tt, st')
    /\ names_of (heap st') 0%nat = []
    /\ getUserIterator [2%N] st' = (Return [0%nat], st').
Proof.
  destruct (unmap_leaves_nameless_object (fun _ => ret tt) st_shared 1%N 2%N "a"
              0%nat [0%nat]) as (st' & Hrun & Hn & _ & Hview & _);
    try reflexivity; try discriminate.
  - left.
  - intros m Hm Hd. apply list_elem_of_singleton in Hm. contradiction.
  - exists st'. repeat split; assumption.
Defined.

(** ** The command [map] and the serialisation of the user mappings *)

Lemma indexOf_number_from_found (xs : list mode_id) (x : mode_id) (i : Z) :
  (0 <= i)%Z ->
  (0 <=? indexOf_number_from xs x i)%Z = true <-> x ∈ xs.
Proof.
  revert i. induction xs as [|y ys IH]; intros i Hi; simpl.
  - split; [discriminate | intros H; inversion H].
  - destruct (N.eqb_spec y x) as [->|Hne].
    + split; [intros _; left | intros _; apply Z.leb_le; lia].
    + rewrite IH by lia. split; [intros H; now right|].
      intros H. apply elem_of_cons in H as [->|H]; [congruence | assumption].
Qed.

Lemma indexOf_number_found (xs : list mode_id) (x : mode_id) :
  (0 <=? indexOf_number xs x)%Z = true <-> x ∈ xs.
Proof. apply indexOf_number_from_found. lia. Qed.

Lemma nv_map_iff (cmd : string) :
  nv_map cmd = true <-> cmd ∈ ["nmap"; "vmap"; "nnoremap"; "vnoremap"].
Proof.
  unfold nv_map. split.
  - destruct cmd as [|c rest]; [discriminate|].
    rewrite andb_true_iff, !orb_true_iff.
    intros [[Hc%Ascii.eqb_eq|Hc%Ascii.eqb_eq] [Hr%String.eqb_eq|Hr%String.eqb_eq]];
      subst; repeat (first [left; reflexivity | right]); left.
  - intros H. repeat (apply elem_of_cons in H as [->|H]; [reflexivity|]). inversion H.
Qed.

Lemma indexOf_string_from_found (s sub : string) (i : Z) :
  (0 <= i)%Z ->
  (-1 <? indexOf_string_from s sub i)%Z = true <-> exists a b, s = a +:+ sub +:+ b.
Proof.
  revert i. induction s as [|c s IH]; intros i Hi; cbn [indexOf_string_from].
  - destruct (String.prefix sub "") eqn:E.
    + split; [intros _ | intros _; apply Z.ltb_lt; lia].
      apply prefix_true_iff in E as [b Hb]. exists "", b. exact Hb.
    + split; [discriminate|]. intros (a & b & H).
      assert (String.prefix sub "" = true) as E'.
      { apply prefix_true_iff. destruct a; [exists b; exact H | discriminate]. }
      congruence.
  - destruct (String.prefix sub (String c s)) eqn:E.
    + split; [intros _ | intros _; apply Z.ltb_lt; lia].
      apply prefix_true_iff in E as [b Hb]. exists "", b. exact Hb.
    + rewrite IH by lia. split.
      * intros (a & b & ->). exists (String c a), b. reflexivity.
      * intros (a & b & H). destruct a as [|d a]; cbn [String.append] in H.
        -- assert (String.prefix sub (String c s) = true) as E'
             by (apply prefix_true_iff; exists b; exact H).
           congruence.
        -- injection H as _ ->. exists a, b. reflexivity.
Qed.

Lemma generate_elem (h : list Map.t) (stack : gmap mode_id (list loc))
    (modes : list mode_id) (maps ys : list loc) :
  generate h stack modes maps = Return ys -> forall y, y ∈ ys -> y ∈ maps.
Proof.
  revert ys. induction maps as [|map maps IH]; intros ys; simpl.
  - intros [= <-] y Hy. inversion Hy.
  - destruct (every_mode h stack map modes) as [keep|]; [|discriminate].
    destruct (generate h stack modes maps) as [zs|]; [|discriminate].
    intros [= <-] y Hy. destruct keep.
    + apply elem_of_cons in Hy as [->|Hy]; [left | right; now apply (IH zs)].
    + right. now apply (IH zs).
Qed.

(** Every element [serial] returns is made of a user map of the first mode
    of the list: its command is the name of the command, its argument the
    first name of the map, its literal argument the [rhs] of the map,
    which is not empty, and its option the [silent] flag of the map. The
    map is a [noremap] map exactly when the name of the command contains
    [noremap]; and the commands [nmap], [vmap], [nnoremap] and [vnoremap]
    never serialise a map that is active in both [NORMAL] and [VISUAL]. *)
Theorem serial_entries_come_from_user_maps
    (NORMAL VISUAL : mode_id) (name : string) (modes : list mode_id) (st : state)
    (entries : list Serial.t) (e : Serial.t) :
  serial NORMAL VISUAL name modes st = (Return entries, st) ->
  e ∈ entries ->
  exists first rest maps map m r,
    modes = first :: rest
    /\ user st !! first = Some maps
    /\ map ∈ maps
    /\ heap st !! map = Some m
    /\ e = {| Serial.command := name;
              Serial.options_silent := Map.silent m;
              Serial.arguments := [Map.names m !! 0%nat];
              Serial.literalArg := Some r |}
    /\ Map.rhs m = Some r /\ r <> ""
    /\ (Map.noremap m = true <-> exists a b, name = a +:+ "noremap" +:+ b)
    /\ ~ (name ∈ ["nmap"; "vmap"; "nnoremap"; "vnoremap"]
          /\ NORMAL ∈ Map.modes m /\ VISUAL ∈ Map.modes m).
Proof.
  unfold serial, attempt. intros Hrun He.
  destruct (mappingsIterator modes (user st) st) as [ys|] eqn:Hview; [|discriminate].
  injection Hrun as <-.
  apply list_elem_of_In, in_map_iff in He as (map & <- & Hmap).
  apply filter_In in Hmap as [Hmap%list_elem_of_In Hkeep].
  unfold mappingsIterator in Hview.
  destruct modes as [|first rest]; [discriminate|].
  destruct (user st !! first) as [maps|] eqn:Hfirst; [|discriminate].
  pose proof (generate_elem _ _ _ _ _ Hview map Hmap) as Hin.
  unfold serial_keeps in Hkeep.
  destruct (heap st !! map) as [m|] eqn:Hm; [|discriminate].
  destruct (or_null (Map.rhs m)) as [r0|] eqn:Hrhs; [|discriminate].
  assert (exists r, Map.rhs m = Some r /\ r <> "") as (r & Hr & Hne).
  { destruct (Map.rhs m) as [[|c r]|]; try discriminate. eexists. split; [reflexivity|].
    discriminate. }
  apply andb_true_iff in Hkeep as [Hnoremap Hmulti].
  exists first, rest, maps, map, m, r. split; [reflexivity|]. split; [assumption|].
  split; [assumption|]. split; [assumption|]. split.
  { unfold serial_entry, names_of. rewrite Hm. simpl. now rewrite Hr. }
  split; [assumption|]. split; [assumption|]. split.
  - apply Bool.eqb_prop in Hnoremap. rewrite Hnoremap.
    apply indexOf_string_from_found. lia.
  - intros (Hname & HN & HV). apply negb_true_iff in Hmulti.
    unfold isMultiMode, modes_of in Hmulti. rewrite Hm in Hmulti. simpl in Hmulti.
    rewrite (proj2 (indexOf_number_found _ _) HN) in Hmulti.
    rewrite (proj2 (indexOf_number_found _ _) HV) in Hmulti.
    rewrite (proj2 (nv_map_iff _) Hname) in Hmulti. discriminate.
Qed.

(** The object [addUserMap] makes keeps, whatever is removed, every field
    it was made with but its names. *)
Lemma addUserMap_object canonicalKeys modes keys description action extra (st : state) :
  exists st',
    addUserMap canonicalKeys modes keys description action extra st = (Return tt, st')
    /\ Map.set_names [] <$> (heap st' !! length (heap st))
       = Some (Map.set_names []
                 (Map_init canonicalKeys modes
                    (List.map (fun key => expandLeader key st) keys)
                    (or_string description "User defined mapping") action
                    (Some (ExtraInfo.set_user true (default ExtraInfo.empty extra))))).
Proof.
  destruct (addUserMap_state canonicalKeys modes keys description action extra st)
    as [Hrun Hobj].
  eexists. split; [exact Hrun | exact Hobj].
Qed.

(** The options [map] passes to [addUserMap]. *)
Lemma map_command_state canonicalKeys (NORMAL : mode_id)
    (mappings_list : list mode_id -> option string -> M unit) (feedkeys_action : jsfun)
    (st : state) (lhs rhs : string) (more : list string) (silent : bool)
    (modes : list mode_id) (noremap : bool) :
  user_inv st ->
  rhs <> "" ->
  let name := canonicalKeys (expandLeader lhs st) in
  let map := length (heap st) in
  exists st' m,
    map_command canonicalKeys mappings_list feedkeys_action
      (Args.mk (lhs :: rhs :: more) silent) modes noremap st = (Return tt, st')
    /\ user_inv st'
    /\ heap st' !! map = Some m
    /\ Map.names m = [name]
    /\ Map.modes m = modes
    /\ Map.rhs m = or_null (Some (canonicalKeys rhs))
    /\ Map.noremap m = (is_Nop rhs || noremap)
    /\ Map.count m = true
    /\ Map.silent m = silent
    /\ Map.user m = true
    /\ (forall mode, mode ∈ modes -> map ∈ default [] (user st' !! mode))
    /\ (forall mode, mode ∈ modes -> mode <> 0%N ->
          get NORMAL mode name st' = (Return (Some map), st')).
Proof.
  intros Hinv Hrhs name map.
  set (extra := Some {| ExtraInfo.arg := false; ExtraInfo.count := true;
                        ExtraInfo.motion := false; ExtraInfo.route := false;
                        ExtraInfo.noremap := if is_Nop rhs then true else noremap;
                        ExtraInfo.silent := silent;
                        ExtraInfo.rhs := Some (canonicalKeys rhs);
                        ExtraInfo.user := false |}).
  assert (map_command canonicalKeys mappings_list feedkeys_action
            (Args.mk (lhs :: rhs :: more) silent) modes noremap st
          = addUserMap canonicalKeys modes [lhs] "User defined mapping" feedkeys_action
              extra st) as ->.
  { unfold map_command. cbn [Args.positional Args.silent]. simpl lookup.
    destruct rhs; [congruence | reflexivity]. }
  destruct (addUserMap_last_registration_wins canonicalKeys NORMAL st modes [lhs]
              "User defined mapping" feedkeys_action extra Hinv)
    as (st' & Hrun & Hinv' & Hnames & Hget).
  { apply NoDup_cons. split; [intros H; inversion H | apply NoDup_nil_2]. }
  destruct (addUserMap_object canonicalKeys modes [lhs] "User defined mapping"
              feedkeys_action extra st) as (st2 & Hrun2 & Hobj').
  destruct (addUserMap_stores_object canonicalKeys modes [lhs] "User defined mapping"
              feedkeys_action extra st) as (st3 & Hrun3 & _ & Hin & _).
  rewrite Hrun in Hrun2, Hrun3.
  assert (st2 = st') as -> by congruence. assert (st3 = st') as -> by congruence.
  clear Hrun2 Hrun3. fold map in Hobj'.
  set (m0 := Map_init _ _ _ _ _ _) in *.
  destruct (heap st' !! map) as [m|] eqn:Hm; [|discriminate].
  assert (Map.set_names [] m = Map.set_names [] m0) as Heq
    by (simpl in Hobj'; congruence).
  assert (Map.names m = [name]) as Hn.
  { unfold names_of in Hnames. fold map in Hnames. now rewrite Hm in Hnames. }
  exists st', m. split; [exact Hrun|]. split; [assumption|]. split; [exact Hm|].
  split; [assumption|].
  split; [exact (f_equal Map.modes Heq)|].
  split; [exact (f_equal Map.rhs Heq)|].
  split.
  { transitivity (Map.noremap m0); [exact (f_equal Map.noremap Heq)|].
    simpl. now destruct (is_Nop rhs), noremap. }
  split; [exact (f_equal Map.count Heq)|].
  split.
  { transitivity (Map.silent m0); [exact (f_equal Map.silent Heq)|].
    simpl. now destruct silent. }
  split; [exact (f_equal Map.user Heq)|].
  split; [exact Hin|].
  intros mode Hmode Hnz. apply Hget; [assumption | left | assumption].
Qed.

(** [map] with a left-hand side and a non-empty right-hand side, when the
    names of the user maps are all different: it never calls
    [mappings.list]; it makes one user map, named by the canonical form of
    the left-hand side with its leader expanded, that accepts a count and
    has the canonical right-hand side as [rhs] ([null] when that is empty);
    the map is a [noremap] map when the command asks for it and also when
    the right-hand side is [<Nop>], in any case of the letters; and in
    every mode of the command other than [0] the lookup of the name
    returns this map, whatever was mapped to the name before. *)
Theorem map_command_registers canonicalKeys (NORMAL : mode_id)
    (mappings_list : list mode_id -> option string -> M unit) (feedkeys_action : jsfun)
    (st : state) (lhs rhs : string) (more : list string) (silent : bool)
    (modes : list mode_id) (noremap : bool) :
  user_inv st ->
  rhs <> "" ->
  let name := canonicalKeys (expandLeader lhs st) in
  exists st' m,
    map_command canonicalKeys mappings_list feedkeys_action
      (Args.mk (lhs :: rhs :: more) silent) modes noremap st = (Return tt, st')
    /\ user_inv st'
    /\ heap st' !! length (heap st) = Some m
    /\ Map.names m = [name]
    /\ Map.rhs m = or_null (Some (canonicalKeys rhs))
    /\ Map.noremap m = (is_Nop rhs || noremap)
    /\ Map.count m = true
    /\ Map.silent m = silent
    /\ (forall mode, mode ∈ modes -> mode <> 0%N ->
          get NORMAL mode name st' = (Return (Some (length (heap st))), st')).
Proof.
  intros Hinv Hrhs name.
  destruct (map_command_state canonicalKeys NORMAL mappings_list feedkeys_action st
              lhs rhs more silent modes noremap Hinv Hrhs)
    as (st' & m & Hrun & Hinv' & Hm & Hn & _ & Hr & Hnr & Hc & Hs & _ & _ & Hget).
  exists st', m. repeat (split; [assumption|]). exact Hget.
Qed.

Lemma map_command_registers_witness :
  exists st' m,
    map_command plain_keys (fun _ _ => throw TypeError) f0
      (Args.mk ["a"; "<nop>"] false) [1%N; 2%N] false (Mappings [0%N; 1%N; 2%N] None)
    = (Return tt, st')
    /\ heap st' !! 0%nat = Some m
    /\ Map.noremap m = true
    /\ get 1%N 2%N "a" st' = (Return (Some 0%nat), st').
Proof.
  destruct (map_command_registers plain_keys 1%N (fun _ _ => throw TypeError) f0
              (Mappings [0%N; 1%N; 2%N] None) "a" "<nop>" [] false [1%N; 2%N] false)
    as (st' & m & Hrun & _ & Hm & _ & _ & Hnr & _ & _ & Hget).
  - apply Mappings_user_inv.
  - discriminate.
  - exists st', m. split; [exact Hrun|]. split; [exact Hm|]. split; [exact Hnr|].
    apply Hget; [right; left | discriminate].
Defined.

(** What [map] registers for [NORMAL] and [VISUAL] is what [serial] writes
    back. After [map] with a left-hand side and a right-hand side whose
    canonical form is not empty, the names of the user maps being all
    different, the serialisation for the command [noremap] (when the map is
    a [noremap] map) or [map] (when it is not), over the same two modes,
    has an element with the canonical left-hand side as argument, the
    canonical right-hand side as literal argument and the [<silent>] option
    as given; and the new map, active in both modes, is one that [nmap],
    [vmap], [nnoremap] and [vnoremap] leave out. *)
Theorem map_command_then_serial canonicalKeys (NORMAL VISUAL : mode_id)
    (mappings_list : list mode_id -> option string -> M unit) (feedkeys_action : jsfun)
    (st : state) (lhs rhs : string) (more : list string) (silent : bool) (noremap : bool) :
  user_inv st ->
  rhs <> "" ->
  canonicalKeys rhs <> "" ->
  let name := if is_Nop rhs || noremap then "noremap" else "map" in
  exists st' entries,
    map_command canonicalKeys mappings_list feedkeys_action
      (Args.mk (lhs :: rhs :: more) silent) [NORMAL; VISUAL] noremap st = (Return tt, st')
    /\ serial NORMAL VISUAL name [NORMAL; VISUAL] st' = (Return entries, st')
    /\ {| Serial.command := name;
          Serial.options_silent := silent;
          Serial.arguments := [Some (canonicalKeys (expandLeader lhs st))];
          Serial.literalArg := Some (canonicalKeys rhs) |} ∈ entries
    /\ (forall cmd, cmd ∈ ["nmap"; "vmap"; "nnoremap"; "vnoremap"] ->
          isMultiMode NORMAL VISUAL (heap st') (length (heap st)) cmd = true).
Proof.
  intros Hinv Hrhs Hcanon name.
  destruct (map_command_state canonicalKeys NORMAL mappings_list feedkeys_action st
              lhs rhs more silent [NORMAL; VISUAL] noremap Hinv Hrhs)
    as (st' & m & Hrun & _ & Hm & Hn & Hmodes & Hr & Hnr & _ & Hs & _ & Hin & _).
  set (map := length (heap st)) in *.
  assert (Map.rhs m = Some (canonicalKeys rhs)) as Hr'.
  { rewrite Hr. destruct (canonicalKeys rhs); [congruence | reflexivity]. }
  assert (exists mapsN, user st' !! NORMAL = Some mapsN /\ map ∈ mapsN) as (mapsN & HN & HinN).
  { specialize (Hin NORMAL). destruct (user st' !! NORMAL) as [ms|].
    - exists ms. split; [reflexivity | apply Hin; left].
    - exfalso. assert (map ∈ @nil nat) as H by (apply Hin; left). inversion H. }
  assert (exists mapsV, user st' !! VISUAL = Some mapsV /\ map ∈ mapsV) as (mapsV & HV & HinV).
  { specialize (Hin VISUAL). destruct (user st' !! VISUAL) as [ms|].
    - exists ms. split; [reflexivity | apply Hin; right; left].
    - exfalso. assert (map ∈ @nil nat) as H by (apply Hin; right; left). inversion H. }
  assert (isMultiMode NORMAL VISUAL (heap st') map name = false) as Hmulti.
  { unfold isMultiMode. replace (nv_map name) with false; [apply andb_false_r|].
    unfold name. now destruct (is_Nop rhs || noremap). }
  assert ((-1 <? indexOf_string name "noremap")%Z = Map.noremap m) as Hflag.
  { rewrite Hnr. unfold name. now destruct (is_Nop rhs || noremap). }
  exists st'. eexists. split; [exact Hrun|]. split; [|split].
  - unfold serial, attempt, mappingsIterator. rewrite HN.
    rewrite generate_known; [reflexivity|].
    intros mode Hmode. apply list_elem_of_singleton in Hmode as ->. eauto.
  - apply list_elem_of_In, in_map_iff. exists map. split.
    + unfold serial_entry, names_of. rewrite Hm. simpl. now rewrite Hs, Hn, Hr'.
    + apply filter_In. split.
      * apply filter_In. split; [now apply list_elem_of_In|].
        apply keep_map_true. intros mode Hmode.
        apply list_elem_of_singleton in Hmode as ->. exists map. rewrite HV.
        split; [assumption|]. exists m, m. repeat split; assumption.
      * unfold serial_keeps. rewrite Hm, Hr'.
        assert (or_null (Some (canonicalKeys rhs)) = Some (canonicalKeys rhs)) as ->
          by (destruct (canonicalKeys rhs); [congruence | reflexivity]).
        rewrite Hflag, Hmulti. now destruct (Map.noremap m).
  - intros cmd Hcmd. unfold isMultiMode, modes_of. rewrite Hm. simpl. rewrite Hmodes.
    rewrite (proj2 (indexOf_number_found _ _)) by left.
    rewrite (proj2 (indexOf_number_found _ _)) by (right; left).
    simpl. now apply nv_map_iff.
Qed.

Lemma map_command_then_serial_witness :
  exists st' entries,
    map_command plain_keys (fun _ _ => throw TypeError) f0
      (Args.mk ["a"; "b"] true) [1%N; 2%N] false (Mappings [0%N; 1%N; 2%N] None)
    = (Return tt, st')
    /\ serial 1%N 2%N "map" [1%N; 2%N] st' = (Return entries, st')
    /\ Serial.mk "map" true [Some "a"] (Some "b") ∈ entries.
Proof.
  destruct (map_command_then_serial plain_keys 1%N 2%N (fun _ _ => throw TypeError) f0
              (Mappings [0%N; 1%N; 2%N] None) "a" "b" [] true false)
    as (st' & entries & Hrun & Hser & Hin & _).
  - apply Mappings_user_inv.
  - discriminate.
  - discriminate.
  - exists st', entries. repeat split; assumption.
Defined.

Lemma serial_entries_come_from_user_maps_witness :
  let st := snd (map_command plain_keys (fun _ _ => throw TypeError) f0
                   (Args.mk ["a"; "b"] true) [1%N; 2%N] false
                   (Mappings [0%N; 1%N; 2%N] None)) in
  exists first rest maps map m r,
    [1%N; 2%N] = first :: rest
    /\ user st !! first = Some maps
    /\ map ∈ maps
    /\ heap st !! map = Some m
    /\ Serial.mk "map" true [Some "a"] (Some "b")
       = Serial.mk "map" (Map.silent m) [Map.names m !! 0%nat] (Some r)
    /\ Map.rhs m = Some r /\ r <> ""
    /\ (Map.noremap m = true <-> exists a b, "map" = a +:+ "noremap" +:+ b)
    /\ ~ ("map" ∈ ["nmap"; "vmap"; "nnoremap"; "vnoremap"]
          /\ 1%N ∈ Map.modes m /\ 2%N ∈ Map.modes m).
Proof.
  intros st.
  apply (serial_entries_come_from_user_maps 1%N 2%N "map" [1%N; 2%N] st
           [Serial.mk "map" true [Some "a"] (Some "b")]).
  - reflexivity.
  - left.
Defined.

(** A sequence of three registrations, each with names that are all
    different, from the state [Mappings()] starts from. *)
Lemma addUserMaps_user_inv_witness :
  user_inv
    (addUserMaps plain_keys
       [Registration [1%N; 2%N] ["a"; "b"] "" f0 None;
        Registration [1%N] ["a"] "" f0 None;
        Registration [2%N] ["b"; "c"] "" f0 None]
       (Mappings [0%N; 1%N; 2%N] None)).
Proof.
  apply addUserMaps_user_inv; [apply Mappings_user_inv|].
  intros r Hr.
  repeat (apply elem_of_cons in Hr as [->|Hr];
          [vm_compute; apply (bool_decide_unpack _); vm_compute; exact I|]).
  inversion Hr.
Defined.

Lemma mapclear_empties_its_modes_witness :
  exists st',
    mapclear_command [1%N; 2%N] st_shared = (Return tt, st')
    /\ user st' !! 1%N = Some [] /\ user st' !! 2%N = Some []
    /\ user st' !! 0%N = user st_shared !! 0%N.
Proof.
  destruct (mapclear_empties_its_modes [1%N; 2%N] st_shared)
    as (st' & Hrun & Hin & Hout & _).
  exists st'. split; [exact Hrun|]. split; [apply Hin; left|].
  split; [apply Hin; right; left|]. apply Hout.
  intros H. apply elem_of_cons in H as [H|H]; [discriminate|].
  apply list_elem_of_singleton in H. discriminate.
Defined.

(** One default map with the three names [d], [dw] and [dd] is returned
    twice for the prefix [d], once for each longer name. *)
Lemma getCandidates_one_copy_per_name_witness :
  let st := snd (add plain_keys [1%N] ["d"; "dw"; "dd"] "" f0 None
                   (Mappings [0%N; 1%N] None)) in
  getCandidates 1%N "d" st = (Return [0%nat; 0%nat], st).
Proof.
  intros st.
  rewrite (getCandidates_one_copy_per_name st 1%N "d" [] [0%nat] eq_refl eq_refl).
  reflexivity.
Defined.

(** ** Leader expansion, for a leader without a dollar sign *)

Lemma ci_eqb_lt (c : ascii) : ci_eqb "<" c = true -> c = "<"%char.
Proof.
  destruct c as [[] [] [] [] [] [] [] []]; vm_compute; intros H;
    first [reflexivity | discriminate H].
Qed.

Lemma match_here_app (pat s m rest x : string) :
  match_here pat s = Some (m, rest) ->
  match_here pat (s +:+ x) = Some (m, rest +:+ x).
Proof.
  revert s m rest. induction pat as [|p pat IH]; intros s m rest; simpl.
  - intros [= <- <-]. reflexivity.
  - destruct s as [|c s]; [discriminate|]. simpl.
    destruct (ci_eqb p c); [|discriminate].
    destruct (match_here pat s) as [[m' r']|] eqn:E; [|discriminate].
    intros [= <- <-]. now rewrite (IH _ _ _ E).
Qed.

Lemma search_after_plain_text (before token after : string) :
  no_lt before = true ->
  match_here "<Leader>" token = Some (token, "") ->
  search "<Leader>" (before +:+ token +:+ after) = Some (before, token, after).
Proof.
  intros Hlt Htok. induction before as [|c before IH].
  - destruct token as [|t token]; [discriminate|].
    pose proof (match_here_app _ _ _ _ after Htok) as Hm.
    change ("" +:+ String t token +:+ after) with (String t (token +:+ after)).
    change (String t token +:+ after) with (String t (token +:+ after)) in Hm.
    change ("" +:+ after) with after in Hm.
    cbn [search]. now rewrite Hm.
  - simpl in Hlt. apply andb_true_iff in Hlt as [Hc Hlt].
    change (String c before +:+ token +:+ after)
      with (String c (before +:+ token +:+ after)).
    cbn [search].
    assert (match_here "<Leader>" (String c (before +:+ token +:+ after)) = None) as ->.
    { cbn [match_here]. destruct (ci_eqb "<" c) eqn:E; [|reflexivity].
      apply ci_eqb_lt in E. subst c. discriminate. }
    now rewrite (IH Hlt).
Qed.

(** With a leader that has no dollar sign, [expandLeader] replaces the
    first [<Leader>], whatever the case of its letters, by the leader, and
    keeps the text before and after it as it is, a second [<Leader>]
    included; a text without [<] is returned unchanged. The leader is the
    value of [mapleader], and a backslash when there is no such variable. *)
Theorem expandLeader_replaces_first_token (before token after : string) (st : state) :
  no_lt before = true ->
  match_here "<Leader>" token = Some (token, "") ->
  no_dollar (getMapLeader_value st) = true ->
  expandLeader (before +:+ token +:+ after) st
  = before +:+ getMapLeader_value st +:+ after
  /\ expandLeader before st = before
  /\ (mapleader st = None -> getMapLeader_value st = "\").
Proof.
  intros Hlt Htok Hd. split; [|split].
  - unfold expandLeader, replace_first_ci.
    rewrite (search_after_plain_text before token after Hlt Htok).
    now rewrite GetSubstitution_no_dollar.
  - unfold expandLeader, replace_first_ci.
    assert (search "<Leader>" before = None) as ->; [|reflexivity].
    clear -Hlt. induction before as [|c before IH]; [reflexivity|].
    simpl in Hlt. apply andb_true_iff in Hlt as [Hc Hlt].
    cbn [search match_here]. destruct (ci_eqb "<" c) eqn:E.
    + apply ci_eqb_lt in E. subst c. discriminate.
    + now rewrite (IH Hlt).
  - intros H. unfold getMapLeader_value, variableReference_mapleader. now rewrite H.
Qed.

Lemma expandLeader_replaces_first_token_witness :
  expandLeader "g<LeAdEr>w<Leader>" (Mappings [] (Some ",")) = "g,w<Leader>".
Proof.
  exact (proj1 (expandLeader_replaces_first_token "g" "<LeAdEr>" "w<Leader>"
                  (Mappings [] (Some ",")) eq_refl eq_refl eq_refl)).
Defined.
